(** * mongo-bulk-exporter-go: the resumable export loop of [main.go]

    A shallow embedding of [src/main.go]: the checkpoint file
    ([saveLastID] / [loadLastID]), one iteration of the fetch, write,
    checkpoint loop of [exportWorker], and the goroutine structure of
    [main] (wait group, buffered work channel, closer goroutine).

    What lives outside the repository is kept apart and named as such:
    the driver's [primitive.ObjectID], Go's [encoding/hex] and
    [strings.TrimSpace], and the server side of [collection.Find]. *)

From Stdlib Require Import ZArith NArith Lia List Bool Ascii String Sorted.
From Stdlib.Strings Require Import Byte.
From stdpp Require Import base gmap strings list pretty.

Local Open Scope string_scope.
Local Open Scope list_scope.

(** ** Constants of [main.go] *)

Definition batchSize : Z := 100000.
Definition workers : nat := 1.
Definition lastIDFile : string := "last_id.txt".
Definition exportDir : string := "exports".
Definition logFilePath : string := "export.log".

(** ** [primitive.ObjectID]: [type ObjectID [12]byte] *)

Record ObjectID := mkObjectID {
  oid_bytes : list byte;
  oid_len : Nat.eqb (length oid_bytes) 12 = true
}.

Definition NilObjectID : ObjectID :=
  mkObjectID (repeat x00 12) eq_refl.

Fixpoint bytes_eqb (a b : list byte) : bool :=
  match a, b with
  | [], [] => true
  | x :: a', y :: b' => Byte.eqb x y && bytes_eqb a' b'
  | _, _ => false
  end.

(** [func (id ObjectID) IsZero() bool { return id == NilObjectID }] *)
Definition IsZero (id : ObjectID) : bool :=
  bytes_eqb (oid_bytes id) (oid_bytes NilObjectID).

(** ** [encoding/hex] *)

Definition hextable : string := "0123456789abcdef".

Definition hexdigit (n : N) : ascii :=
  match String.get (N.to_nat n) hextable with
  | Some c => c
  | None => "0"%char
  end.

(** [dst[j] = hextable[v>>4]; dst[j+1] = hextable[v&0x0f]] *)
Definition EncodeToString (src : list byte) : string :=
  fold_right
    (fun v acc =>
       String (hexdigit (N.shiftr (Byte.to_N v) 4))
              (String (hexdigit (N.land (Byte.to_N v) 15)) acc))
    "" src.

(** The reverse table of [encoding/hex]: both letter cases are digits. *)
Definition fromHexChar (c : ascii) : option N :=
  let n := N_of_ascii c in
  if (48 <=? n)%N && (n <=? 57)%N then Some (n - 48)%N
  else if (97 <=? n)%N && (n <=? 102)%N then Some (n - 97 + 10)%N
  else if (65 <=? n)%N && (n <=? 70)%N then Some (n - 65 + 10)%N
  else None.

(** [hex.Decode]: pairs of digits, [(a << 4) | b]; an invalid digit or an
    odd length is an error. *)
Fixpoint Decode (src : string) : option (list byte) :=
  match src with
  | EmptyString => Some []
  | String _ EmptyString => None
  | String p (String q rest) =>
      match fromHexChar p, fromHexChar q with
      | Some a, Some b =>
          match Byte.of_N (N.lor (N.shiftl a 4) b), Decode rest with
          | Some v, Some vs => Some (v :: vs)
          | _, _ => None
          end
      | _, _ => None
      end
  end.

(** [func (id ObjectID) Hex() string] *)
Definition Hex (id : ObjectID) : string := EncodeToString (oid_bytes id).

(** [primitive.ObjectIDFromHex]: the string must have 24 characters and
    decode to 12 bytes. *)
Definition ObjectIDFromHex (s : string) : option ObjectID :=
  if negb (Nat.eqb (String.length s) 24) then None
  else
    match Decode s with
    | None => None
    | Some b =>
        match Nat.eqb (length b) 12 as ok
              return Nat.eqb (length b) 12 = ok -> option ObjectID with
        | true => fun H => Some (mkObjectID b H)
        | false => fun _ => None
        end eq_refl
    end.

(** ** [strings.TrimSpace]

    The ASCII fast path is Go's loop; as soon as a byte at or above
    [utf8.RuneSelf] is met Go hands the rest to the Unicode-aware
    [TrimFunc] / [TrimRightFunc], which are left abstract here. *)

Class UnicodeTrim := {
  TrimFunc_IsSpace : string -> string;
  TrimRightFunc_IsSpace : string -> string
}.

Definition RuneSelf : N := 128.

(** [asciiSpace]: ['\t', '\n', '\v', '\f', '\r', ' ']. *)
Definition asciiSpace (c : ascii) : bool :=
  match N_of_ascii c with
  | 9%N | 10%N | 11%N | 12%N | 13%N | 32%N => true
  | _ => false
  end.

Section TrimSpace.
Context `{UnicodeTrim}.

(** First loop: [inl] is the result of the Unicode fallback on
    [s[start:]], [inr] is [s[start:]] after the ASCII spaces. *)
Fixpoint trim_start (s : string) : string + string :=
  match s with
  | EmptyString => inr EmptyString
  | String c s' =>
      if (RuneSelf <=? N_of_ascii c)%N then inl (TrimFunc_IsSpace s)
      else if asciiSpace c then trim_start s'
      else inr s
  end.

(** Second loop, on [s[start:]] read from its end ([r] is reversed). *)
Fixpoint trim_stop (r : list ascii) : string + list ascii :=
  match r with
  | [] => inr []
  | c :: r' =>
      if (RuneSelf <=? N_of_ascii c)%N
      then inl (TrimRightFunc_IsSpace (string_of_list_ascii (rev r)))
      else if asciiSpace c then trim_stop r'
      else inr r
  end.

Definition TrimSpace (s : string) : string :=
  match trim_start s with
  | inl t => t
  | inr s1 =>
      match trim_stop (rev (list_ascii_of_string s1)) with
      | inl t => t
      | inr r => string_of_list_ascii (rev r)
      end
  end.

(** ** The checkpoint file [last_id.txt]

    Its state is [None] when [os.ReadFile] fails (no file, or not
    readable) and [Some data] otherwise. *)

Inductive SaveOutcome :=
| SaveCreateFails              (* os.Create returned an error *)
| SaveWriteFails (written : nat) (* WriteString failed after [written] bytes *)
| SaveOk.

(** [saveLastID]: [os.Create] truncates, [WriteString(lastID.Hex())]. *)
Definition saveLastID (o : SaveOutcome) (lastID : ObjectID)
           (file : option string) : option string :=
  match o with
  | SaveCreateFails => file
  | SaveWriteFails n => Some (String.substring 0 n (Hex lastID))
  | SaveOk => Some (Hex lastID)
  end.

(** [loadLastID]: both error branches return [primitive.NilObjectID]. *)
Definition loadLastID (file : option string) : ObjectID :=
  match file with
  | None => NilObjectID
  | Some data =>
      match ObjectIDFromHex (TrimSpace data) with
      | None => NilObjectID
      | Some lastID => lastID
      end
  end.

End TrimSpace.

(** ** BSON values and documents

    [bson.M] is [map[string]interface{}]: a field of a decoded record can
    hold a value of any BSON type.  Four of them are enough here. *)

Inductive Value :=
| VNull
| VString (s : string)
| VObjectID (id : ObjectID)
| VBool (b : bool).

Abbreviation Doc := (gmap string Value).

(** [v.(primitive.ObjectID)]: [None] stands for the run-time panic of a
    failed type assertion (a missing key reads as the nil interface). *)
Definition assert_ObjectID (v : option Value) : option ObjectID :=
  match v with
  | Some (VObjectID id) => Some id
  | _ => None
  end.

(** [results[len(results)-1]["_id"]] *)
Definition last_id_field (results : list Doc) : option Value :=
  match last results with
  | Some d => d !! "_id"
  | None => None
  end.

(** ** The query built by [exportWorker] *)

Inductive Filter :=
| FilterAll                               (* bson.M{} *)
| FilterGt (field : string) (id : ObjectID). (* bson.M{field: bson.M{"$gt": id}} *)

Record FindOptions := { Limit : Z; Sort : list (string * Z) }.

Record Query := { q_filter : Filter; q_opts : FindOptions }.

(** ** The server side of [Find]

    The server is not part of the repository.  What follows is its
    answer to the one shape of query the exporter sends (a filter that
    is empty or [$gt] on one field, one ascending sort key, a limit), on
    a collection given as the list of its records, with MongoDB's
    comparison order on the value types above: type rank first, then
    the bytes. *)

Definition bson_rank (v : Value) : N :=
  match v with
  | VNull => 2
  | VString _ => 4
  | VObjectID _ => 8
  | VBool _ => 9
  end.

Definition bson_bytes (v : Value) : list N :=
  match v with
  | VNull => []
  | VString s => map N_of_ascii (list_ascii_of_string s)
  | VObjectID id => map Byte.to_N (oid_bytes id)
  | VBool b => [if b then 1%N else 0%N]
  end.

Fixpoint lex_leb (a b : list N) : bool :=
  match a, b with
  | [], _ => true
  | _ :: _, [] => false
  | x :: a', y :: b' =>
      if (x <? y)%N then true
      else if (x =? y)%N then lex_leb a' b'
      else false
  end.

Definition value_leb (a b : Value) : bool :=
  if (bson_rank a <? bson_rank b)%N then true
  else if (bson_rank a =? bson_rank b)%N
       then lex_leb (bson_bytes a) (bson_bytes b)
       else false.

Definition value_ltb (a b : Value) : bool := negb (value_leb b a).

(** A missing field sorts as null. *)
Definition field_of (f : string) (d : Doc) : Value :=
  match d !! f with
  | Some v => v
  | None => VNull
  end.

(** [$gt] with an ObjectID operand only matches ObjectID values. *)
Definition matches (f : Filter) (d : Doc) : bool :=
  match f with
  | FilterAll => true
  | FilterGt field id =>
      match d !! field with
      | Some (VObjectID k) => value_ltb (VObjectID id) (VObjectID k)
      | _ => false
      end
  end.

Fixpoint insert_by (f : string) (d : Doc) (l : list Doc) : list Doc :=
  match l with
  | [] => [d]
  | x :: l' =>
      if value_leb (field_of f d) (field_of f x) then d :: l
      else x :: insert_by f d l'
  end.

Definition sort_by (f : string) (l : list Doc) : list Doc :=
  fold_right (insert_by f) [] l.

(** Only the single ascending key the exporter asks for is given a
    meaning; any other specification leaves the store order. *)
Definition apply_sort (spec : list (string * Z)) (l : list Doc) : list Doc :=
  match spec with
  | [(f, 1%Z)] => sort_by f l
  | _ => l
  end.

(** A limit of zero is no limit. *)
Definition apply_limit (n : Z) (l : list Doc) : list Doc :=
  if (n =? 0)%Z then l else take (Z.to_nat (Z.abs n)) l.

Definition mongoFind (store : list Doc) (q : Query) : list Doc :=
  apply_limit (Limit (q_opts q))
    (apply_sort (Sort (q_opts q)) (filter (fun d => matches (q_filter q) d) store)).

(** ** The world one lane acts on *)

Inductive LogMsg :=
| LogFetchFailed (workerID : Z)
| LogDecodeFailed (workerID : Z)
| LogNoMore (workerID : Z)
| LogCreateFailed (workerID : Z)
| LogWriteFailed (workerID : Z)
| LogExported (workerID batchNum : Z) (n : nat) (filePath : string)
| LogSaveCreateWarning
| LogSaveWriteWarning
| LogCompleted
| LogTotalTime.

Inductive Event :=
| EvFind (q : Query)
| EvCreate (filePath : string)
| EvEncode (filePath : string) (results : list Doc)
| EvSave (id : ObjectID)
| EvLog (m : LogMsg).

(** A batch file after [os.Create] and before [Encode] returns without
    error is [Incomplete]. *)
Inductive BatchFile :=
| Incomplete
| Complete (results : list Doc).

Record World := mkWorld {
  ckpt : option string;            (* last_id.txt *)
  files : gmap string BatchFile;   (* the export directory *)
  trace : list Event               (* calls and log lines, oldest first *)
}.

Definition emit (e : Event) (w : World) : World :=
  mkWorld (ckpt w) (files w) (trace w ++ [e]).

Definition put_file (p : string) (f : BatchFile) (w : World) : World :=
  mkWorld (ckpt w) (<[p := f]> (files w)) (trace w).

Definition os_Create (p : string) (w : World) : World :=
  emit (EvCreate p) (put_file p Incomplete w).

Definition Encode (p : string) (results : list Doc) (w : World) : World :=
  emit (EvEncode p results) (put_file p (Complete results) w).

(** [saveLastID] as the lane calls it: the file, the call and its
    warning in the trace. *)
Definition saveLastID_call (o : SaveOutcome) (id : ObjectID) (w : World) : World :=
  let w1 := mkWorld (saveLastID o id (ckpt w)) (files w) (trace w ++ [EvSave id]) in
  match o with
  | SaveCreateFails => emit (EvLog LogSaveCreateWarning) w1
  | SaveWriteFails _ => emit (EvLog LogSaveWriteWarning) w1
  | SaveOk => w1
  end.

(** ** One iteration of the inner loop of [exportWorker] *)

Inductive FindResult :=
| FindError                      (* collection.Find returned an error *)
| DecodeError                    (* cursor.All returned an error *)
| Results (results : list Doc).

(** What the outside answers during one iteration. *)
Record IterEnv := {
  env_find : Query -> FindResult;
  env_create : bool;               (* os.Create succeeds *)
  env_encode : bool;               (* encoder.Encode succeeds *)
  env_save : SaveOutcome
}.

Record LaneState := mkLane { lastID : ObjectID; batchNum : Z }.

Inductive Outcome :=
| Continue (st : LaneState)      (* next iteration *)
| Break                          (* no more data: leaves the inner loop *)
| Return                         (* an error: the worker returns *)
| Panic.                         (* failed type assertion *)

(** Go's [int] is 64 bits wide; [batchNum++] wraps. *)
Definition wrap_int (z : Z) : Z := ((z + 2 ^ 63) mod 2 ^ 64 - 2 ^ 63)%Z.

(** [fmt.Sprintf("batch_%d_worker_%d.json", batchNum, workerID)] *)
Definition batch_name (batchNum workerID : Z) : string :=
  "batch_" +:+ pretty batchNum +:+ "_worker_" +:+ pretty workerID +:+ ".json".

(** [filepath.Join] of two clean elements, with the Unix separator. *)
Definition filepath_Join (dir name : string) : string :=
  dir +:+ "/" +:+ name.

Definition lane_filter (lastID : ObjectID) : Filter :=
  if negb (IsZero lastID) then FilterGt "_id" lastID else FilterAll.

Definition lane_query (lastID : ObjectID) : Query :=
  {| q_filter := lane_filter lastID;
     q_opts := {| Limit := batchSize; Sort := [("_id", 1%Z)] |} |}.

Definition exportWorker_iter (workerID : Z) (e : IterEnv)
           (st : LaneState) (w : World) : Outcome * World :=
  let q := lane_query (lastID st) in
  let w := emit (EvFind q) w in
  match env_find e q with
  | FindError => (Return, emit (EvLog (LogFetchFailed workerID)) w)
  | DecodeError => (Return, emit (EvLog (LogDecodeFailed workerID)) w)
  | Results results =>
      if Nat.eqb (length results) 0
      then (Break, emit (EvLog (LogNoMore workerID)) w)
      else
        let filePath := filepath_Join exportDir (batch_name (batchNum st) workerID) in
        if negb (env_create e)
        then (Return, emit (EvLog (LogCreateFailed workerID)) w)
        else
          let w := os_Create filePath w in
          if negb (env_encode e)
          then (Return, emit (EvLog (LogWriteFailed workerID)) w)
          else
            let w := Encode filePath results w in
            match assert_ObjectID (last_id_field results) with
            | None => (Panic, w)
            | Some id =>
                let w := saveLastID_call (env_save e) id w in
                let w := emit (EvLog (LogExported workerID (batchNum st)
                                                  (length results) filePath)) w in
                (Continue (mkLane id (wrap_int (batchNum st + 1))), w)
            end
  end.

(** The inner [for] loop, for at most [fuel] iterations; [env i] answers
    the [i]-th of them.  [Continue] means the fuel ran out. *)
Fixpoint exportWorker_loop (workerID : Z) (env : nat -> IterEnv) (fuel : nat)
         (st : LaneState) (w : World) : Outcome * World :=
  match fuel with
  | O => (Continue st, w)
  | S n =>
      match exportWorker_iter workerID (env O) st w with
      | (Continue st', w') =>
          exportWorker_loop workerID (fun i => env (S i)) n st' w'
      | r => r
      end
  end.

(** [for lastID := range workChan { batchNum := 1; ... }] *)
Definition lane_start (id : ObjectID) : LaneState := mkLane id 1.

(** An outside without faults, answering from a fixed collection. *)
Definition store_env (store : list Doc) (o : SaveOutcome) : IterEnv :=
  {| env_find := fun q => Results (mongoFind store q);
     env_create := true; env_encode := true; env_save := o |}.

Definition world0 (file : option string) : World := mkWorld file ∅ [].

(** ** The goroutines of [main]

    One state for the main goroutine, the closer goroutine and the
    workers, with the wait group and the buffered channel they share.
    The state starts after the spawning loop: every worker is blocked at
    [range workChan] and the wait group counts all of them. *)

Inductive MainPC :=
| MFeed (id : ObjectID)          (* workChan <- lastID *)
| MGo                            (* go func() { wg.Wait(); close(workChan) }() *)
| MWait                          (* wg.Wait() *)
| MExit.                         (* completion logged, main returned *)

Inductive CloserPC :=
| CNotStarted
| CWait                          (* wg.Wait() *)
| CClose                         (* close(workChan) *)
| CEnd.

Inductive WorkerPC :=
| WRange                         (* at [range workChan], nothing received yet *)
| WLoop (st : LaneState)         (* inside the inner loop *)
| WDone                          (* after [break]: at [range workChan] again *)
| WReturned                      (* [return] after an error; wg.Done() ran *)
| WRangeEnd                      (* the range loop ended; wg.Done() ran *)
| WPanicking.                    (* unwinding a panic; wg.Done() ran *)

Record Sys := mkSys {
  main_pc : MainPC;
  closer_pc : CloserPC;
  lanes : list WorkerPC;
  chan_buf : list ObjectID;        (* workChan, capacity [workers] *)
  chan_closed : bool;
  wg : nat;                        (* the WaitGroup counter *)
  crashed : bool;                  (* the runtime ended the process on a panic *)
  world : World
}.

Definition init (id : ObjectID) (w : World) : Sys :=
  mkSys (MFeed id) CNotStarted (replicate workers WRange) [] false workers false w.

Definition running (s : Sys) : Prop :=
  crashed s = false /\ main_pc s <> MExit.

(** A worker that executes the receive of [range workChan]. *)
Definition at_range (pc : WorkerPC) : bool :=
  match pc with
  | WRange | WDone => true
  | _ => false
  end.

(** The state of worker [i] after one iteration of its inner loop. *)
Definition after_iter (s : Sys) (i : nat) (out : Outcome) (w' : World) : Sys :=
  match out with
  | Continue st' =>
      mkSys (main_pc s) (closer_pc s) (<[i := WLoop st']> (lanes s))
            (chan_buf s) (chan_closed s) (wg s) (crashed s) w'
  | Break =>
      mkSys (main_pc s) (closer_pc s) (<[i := WDone]> (lanes s))
            (chan_buf s) (chan_closed s) (wg s) (crashed s) w'
  | Return =>
      mkSys (main_pc s) (closer_pc s) (<[i := WReturned]> (lanes s))
            (chan_buf s) (chan_closed s) (Nat.pred (wg s)) (crashed s) w'
  | Panic =>
      mkSys (main_pc s) (closer_pc s) (<[i := WPanicking]> (lanes s))
            (chan_buf s) (chan_closed s) (Nat.pred (wg s)) (crashed s) w'
  end.

Inductive step : Sys -> Sys -> Prop :=
| step_feed s id :
    running s -> main_pc s = MFeed id ->
    chan_closed s = false -> length (chan_buf s) < workers ->
    step s (mkSys MGo (closer_pc s) (lanes s) (chan_buf s ++ [id])
                  (chan_closed s) (wg s) (crashed s) (world s))
| step_go s :
    running s -> main_pc s = MGo ->
    step s (mkSys MWait CWait (lanes s) (chan_buf s)
                  (chan_closed s) (wg s) (crashed s) (world s))
| step_wait s :
    running s -> main_pc s = MWait -> wg s = 0 ->
    step s (mkSys MExit (closer_pc s) (lanes s) (chan_buf s)
                  (chan_closed s) (wg s) (crashed s)
                  (emit (EvLog LogTotalTime) (emit (EvLog LogCompleted) (world s))))
| step_closer_wait s :
    running s -> closer_pc s = CWait -> wg s = 0 ->
    step s (mkSys (main_pc s) CClose (lanes s) (chan_buf s)
                  (chan_closed s) (wg s) (crashed s) (world s))
| step_closer_close s :
    running s -> closer_pc s = CClose ->
    step s (mkSys (main_pc s) CEnd (lanes s) (chan_buf s)
                  true (wg s) (crashed s) (world s))
| step_recv s i pc id rest :
    running s -> lanes s !! i = Some pc -> at_range pc = true ->
    chan_buf s = id :: rest ->
    step s (mkSys (main_pc s) (closer_pc s) (<[i := WLoop (lane_start id)]> (lanes s))
                  rest (chan_closed s) (wg s) (crashed s) (world s))
| step_range_end s i pc :
    running s -> lanes s !! i = Some pc -> at_range pc = true ->
    chan_buf s = [] -> chan_closed s = true ->
    step s (mkSys (main_pc s) (closer_pc s) (<[i := WRangeEnd]> (lanes s))
                  (chan_buf s) (chan_closed s) (Nat.pred (wg s)) (crashed s) (world s))
| step_iter s i st e out w' :
    running s -> lanes s !! i = Some (WLoop st) ->
    exportWorker_iter (Z.of_nat i) e st (world s) = (out, w') ->
    step s (after_iter s i out w')
| step_crash s i :
    running s -> lanes s !! i = Some WPanicking ->
    step s (mkSys (main_pc s) (closer_pc s) (lanes s) (chan_buf s)
                  (chan_closed s) (wg s) true (world s)).

Definition reachable (s0 s : Sys) : Prop := rtc step s0 s.

(** A worker that is unwinding a panic. *)
Definition panicking (pc : WorkerPC) : bool :=
  match pc with
  | WPanicking => true
  | _ => false
  end.

(** The status the process ends with, once it has ended: 2 when the
    runtime ended it on a panic.  After [main] has returned the runtime
    still waits for a panic in progress in another goroutine, so a
    worker that is unwinding one decides the status then, too. *)
Definition exit_status (s : Sys) : option Z :=
  if crashed s then Some 2%Z
  else match main_pc s with
       | MExit => if existsb panicking (lanes s) then Some 2%Z else Some 0%Z
       | _ => None
       end.

(** ** Reading a trace *)

Definition saves (t : list Event) : list ObjectID :=
  omap (fun e => match e with EvSave id => Some id | _ => None end) t.

Definition creates (t : list Event) : list string :=
  omap (fun e => match e with EvCreate p => Some p | _ => None end) t.

Definition encodes (t : list Event) : list string :=
  omap (fun e => match e with EvEncode p _ => Some p | _ => None end) t.

Definition finds (t : list Event) : list Query :=
  omap (fun e => match e with EvFind q => Some q | _ => None end) t.

(** The warning [saveLastID] logs, if any. *)
Definition save_warning (o : SaveOutcome) : list Event :=
  match o with
  | SaveCreateFails => [EvLog LogSaveCreateWarning]
  | SaveWriteFails _ => [EvLog LogSaveWriteWarning]
  | SaveOk => []
  end.

(** The same outside with another answer to [saveLastID]. *)
Definition with_save (o : SaveOutcome) (e : IterEnv) : IterEnv :=
  {| env_find := env_find e; env_create := env_create e;
     env_encode := env_encode e; env_save := o |}.

(** The seven ways through one iteration, as a relation between the
    answers of the outside and the result; [iter_specP] below shows that
    [exportWorker_iter] always takes exactly one of them. *)
Inductive iter_spec (workerID : Z) (e : IterEnv) (st : LaneState) (w : World)
  : Outcome * World -> Prop :=
| iter_fetch_failed :
    env_find e (lane_query (lastID st)) = FindError ->
    iter_spec workerID e st w
      (Return, mkWorld (ckpt w) (files w)
                 (trace w ++ [EvFind (lane_query (lastID st));
                              EvLog (LogFetchFailed workerID)]))
| iter_decode_failed :
    env_find e (lane_query (lastID st)) = DecodeError ->
    iter_spec workerID e st w
      (Return, mkWorld (ckpt w) (files w)
                 (trace w ++ [EvFind (lane_query (lastID st));
                              EvLog (LogDecodeFailed workerID)]))
| iter_no_more :
    env_find e (lane_query (lastID st)) = Results [] ->
    iter_spec workerID e st w
      (Break, mkWorld (ckpt w) (files w)
                (trace w ++ [EvFind (lane_query (lastID st));
                             EvLog (LogNoMore workerID)]))
| iter_create_failed results :
    env_find e (lane_query (lastID st)) = Results results ->
    results <> [] -> env_create e = false ->
    iter_spec workerID e st w
      (Return, mkWorld (ckpt w) (files w)
                 (trace w ++ [EvFind (lane_query (lastID st));
                              EvLog (LogCreateFailed workerID)]))
| iter_encode_failed results :
    env_find e (lane_query (lastID st)) = Results results ->
    results <> [] -> env_create e = true -> env_encode e = false ->
    let p := filepath_Join exportDir (batch_name (batchNum st) workerID) in
    iter_spec workerID e st w
      (Return, mkWorld (ckpt w) (<[p := Incomplete]> (files w))
                 (trace w ++ [EvFind (lane_query (lastID st)); EvCreate p;
                              EvLog (LogWriteFailed workerID)]))
| iter_panic results :
    env_find e (lane_query (lastID st)) = Results results ->
    results <> [] -> env_create e = true -> env_encode e = true ->
    assert_ObjectID (last_id_field results) = None ->
    let p := filepath_Join exportDir (batch_name (batchNum st) workerID) in
    iter_spec workerID e st w
      (Panic, mkWorld (ckpt w) (<[p := Complete results]> (<[p := Incomplete]> (files w)))
                (trace w ++ [EvFind (lane_query (lastID st)); EvCreate p;
                             EvEncode p results]))
| iter_exported results id :
    env_find e (lane_query (lastID st)) = Results results ->
    results <> [] -> env_create e = true -> env_encode e = true ->
    assert_ObjectID (last_id_field results) = Some id ->
    let p := filepath_Join exportDir (batch_name (batchNum st) workerID) in
    iter_spec workerID e st w
      (Continue (mkLane id (wrap_int (batchNum st + 1))),
       mkWorld (saveLastID (env_save e) id (ckpt w))
               (<[p := Complete results]> (<[p := Incomplete]> (files w)))
               (trace w ++ [EvFind (lane_query (lastID st)); EvCreate p;
                            EvEncode p results; EvSave id]
                        ++ save_warning (env_save e)
                        ++ [EvLog (LogExported workerID (batchNum st)
                                               (length results) p)])).

(** Every [saveLastID] call in a run of events comes right after the
    creation and the complete encoding of a batch whose last record
    carries the saved key. *)
Definition save_follows_write (evs : list Event) : Prop :=
  forall pre id post, evs = pre ++ EvSave id :: post ->
    exists pre' p results,
      pre = pre' ++ [EvCreate p; EvEncode p results] /\
      assert_ObjectID (last_id_field results) = Some id.

(** The checkpoint file holds what a [saveLastID] call for a batch
    encoded during [evs] left in it: the key of the batch's last record in
    hexadecimal, or the part of it that was written before the failure. *)
Definition ckpt_of_written_batch (evs : list Event) (file : option string) : Prop :=
  exists p results id,
    EvEncode p results ∈ evs /\
    assert_ObjectID (last_id_field results) = Some id /\
    (file = Some (Hex id) \/ exists n, file = Some (String.substring 0 n (Hex id))).

(** The path of the [n]-th batch file of a worker. *)
Definition batch_path (workerID : Z) (n : Z) : string :=
  filepath_Join exportDir (batch_name n workerID).

(** Ascending on a field, in the store's comparison order. *)
Definition ascending (f : string) (l : list Doc) : Prop :=
  StronglySorted (fun a b => value_leb (field_of f a) (field_of f b) = true) l.

(** Weights of a worker state, for the counting invariants: whether it
    still holds the wait group, and whether it has taken a value from
    the channel. *)
Definition live (pc : WorkerPC) : nat :=
  match pc with
  | WRange | WLoop _ | WDone => 1
  | _ => 0
  end.

Definition consumed (pc : WorkerPC) : nat :=
  match pc with
  | WRange => 0
  | _ => 1
  end.

Definition exited (pc : WorkerPC) : Prop :=
  pc = WReturned \/ pc = WPanicking.

(** ASCII lower-casing, to say which spellings of a key
    [ObjectIDFromHex] reads. *)
Definition to_lower (c : ascii) : ascii :=
  let n := N_of_ascii c in
  if (65 <=? n)%N && (n <=? 90)%N then ascii_of_N (n + 32) else c.

Fixpoint lower (s : string) : string :=
  match s with
  | EmptyString => EmptyString
  | String c s' => String (to_lower c) (lower s')
  end.

(** A byte that [TrimSpace] keeps: ASCII and not a space. *)
Definition plain (c : ascii) : bool :=
  negb (RuneSelf <=? N_of_ascii c)%N && negb (asciiSpace c).

(** What holds in every state the goroutines can reach. *)
Definition inv (s : Sys) : Prop :=
  wg s = sum_list (map live (lanes s)) /\
  (chan_closed s = true -> wg s = 0) /\
  (closer_pc s = CClose \/ closer_pc s = CEnd -> wg s = 0) /\
  (main_pc s = MExit -> wg s = 0) /\
  Forall (fun pc => pc <> WRangeEnd) (lanes s) /\
  length (chan_buf s) + sum_list (map consumed (lanes s))
    <= match main_pc s with MFeed _ => 0 | _ => 1 end /\
  (crashed s = true -> main_pc s <> MExit) /\
  (main_pc s = MExit ->
     exists t, trace (world s) = t ++ [EvLog LogCompleted; EvLog LogTotalTime]).

(** An instance for running the model on ASCII inputs, where the fallback
    is never entered. *)
Definition ascii_only : UnicodeTrim :=
  {| TrimFunc_IsSpace := fun s => s; TrimRightFunc_IsSpace := fun s => s |}.

(** Sample data. *)
Definition oid_of (b : byte) : ObjectID :=
  mkObjectID (repeat x00 11 ++ [b]) eq_refl.

Definition doc_of (b : byte) : Doc := {[ "_id" := VObjectID (oid_of b) ]}.

Definition sample_store : list Doc := [doc_of x05; doc_of x02; doc_of x09].

Definition sample_oid : ObjectID :=
  mkObjectID [x65; xa1; xb2; xc3; xd4; xe5; xf6; x07; x18; x29; x3a; x4b] eq_refl.

(** Three answers in a row: two pages whose checkpoint save fails, then
    the same collection without faults. *)
Definition flaky_env (i : nat) : IterEnv :=
  match i with
  | 0 => store_env [doc_of x01; doc_of x02] SaveCreateFails
  | 1 => store_env [doc_of x01; doc_of x02; doc_of x03] (SaveWriteFails 3)
  | _ => store_env [doc_of x01; doc_of x02; doc_of x03] SaveOk
  end.

(** A bound on the iterations a lane still needs on a fixed collection:
    one more than the records beyond its cursor. *)
Definition remaining (store : list Doc) (c : ObjectID) : nat :=
  if IsZero c then S (length store)
  else S (length (filter (fun d => matches (FilterGt "_id" c) d) store)).

(** A collection whose only record carries the zero ObjectID. *)
Definition zero_store : list Doc := [doc_of x00].

(** Two runs on a collection without records, from a missing checkpoint
    file: the state after the worker saw the empty page, and the state
    after a failed [Find]. *)
Definition no_more_world : World :=
  mkWorld None ∅ [EvFind (lane_query NilObjectID); EvLog (LogNoMore 0)].

Definition blocked_state : Sys :=
  mkSys MWait CWait [WDone] [] false 1 false no_more_world.

Definition failing_env : IterEnv :=
  {| env_find := fun _ => FindError; env_create := true;
     env_encode := true; env_save := SaveOk |}.

Definition failed_world : World :=
  mkWorld None ∅ [EvFind (lane_query NilObjectID); EvLog (LogFetchFailed 0);
                  EvLog LogCompleted; EvLog LogTotalTime].

Definition failed_state : Sys :=
  mkSys MExit CWait [WReturned] [] false 0 false failed_world.

(** The state right after the failed [Find], before main has moved. *)
Definition returned_state : Sys :=
  mkSys MWait CWait [WReturned] [] false 0 false
        (mkWorld None ∅ [EvFind (lane_query NilObjectID); EvLog (LogFetchFailed 0)]).

(** ** What every run comes to

    The workers that exist, and the one way to [crashed]. *)
Definition inv_lanes (s : Sys) : Prop :=
  length (lanes s) = workers /\
  (crashed s = true -> WPanicking ∈ lanes s).

(** Main has returned after the completion report, every worker having
    returned on an error, and the process has ended with status 0. *)
Definition reported (s : Sys) : Prop :=
  main_pc s = MExit /\ wg s = 0 /\
  Forall (fun pc => pc = WReturned) (lanes s) /\
  exit_status s = Some 0%Z /\
  exists t, trace (world s) = t ++ [EvLog LogCompleted; EvLog LogTotalTime].

(** [P] holds now, or the goroutines can move and [P] comes to hold
    whichever of them moves, after finitely many steps. *)
Inductive inevitably (P : Sys -> Prop) : Sys -> Prop :=
| inev_now s : P s -> inevitably P s
| inev_step s :
    (exists s', step s s') ->
    (forall s', step s s' -> inevitably P s') ->
    inevitably P s.

(** A bound on the steps main and the closer goroutine still have. *)
Definition steps_left (s : Sys) : nat :=
  match main_pc s with
  | MFeed _ => 5
  | MGo => 4
  | MWait => 1
  | MExit => 0
  end +
  match closer_pc s with
  | CNotStarted => 0
  | CWait => 2
  | CClose => 1
  | CEnd => 0
  end.

(** * Further definitions

    ** Reading the pages of a trace *)

(** The batches encoded, each with the path it went to. *)
Definition pages (t : list Event) : list (string * list Doc) :=
  omap (fun e => match e with EvEncode p r => Some (p, r) | _ => None end) t.

(** The records encoded, in the order they were written. *)
Definition exported (t : list Event) : list Doc :=
  concat (map snd (pages t)).

(** A character that [%d] never prints between the digits. *)
Definition numeral (c : ascii) : bool :=
  match c with
  | "-"%char | "0"%char | "1"%char | "2"%char | "3"%char | "4"%char
  | "5"%char | "6"%char | "7"%char | "8"%char | "9"%char => true
  | _ => false
  end.

(** Strictly before, in the store's order on keys. *)
Definition oid_lt (a b : ObjectID) : Prop :=
  value_ltb (VObjectID a) (VObjectID b) = true.

(** Whether two outcomes leave the loop the same way, with the same
    cursor when it goes on. *)
Definition same_exit (o1 o2 : Outcome) : Prop :=
  match o1, o2 with
  | Continue s1, Continue s2 => lastID s1 = lastID s2
  | Break, Break | Return, Return | Panic, Panic => True
  | _, _ => False
  end.

(** ** The channel and the wait group, in every reachable state *)

Definition inv_chan (s : Sys) : Prop :=
  (chan_closed s = true -> closer_pc s = CEnd) /\
  ((exists id, main_pc s = MFeed id) \/ main_pc s = MGo -> closer_pc s = CNotStarted) /\
  wg s <= workers.

(** Main and the closer goroutine at [wg.Wait()], the worker inside its
    inner loop. *)
Definition in_loop (st : LaneState) (w : World) : Sys :=
  mkSys MWait CWait [WLoop st] [] false 1 false w.

(** ** [getUserInputs]

    [bufio.Reader.ReadString(delim)]: the input up to and including the
    first [delim]; without one, all the input and [io.EOF] ([true]).
    The third component is the input left in the reader. *)

Definition newline : ascii := "010"%char.

Fixpoint ReadString (delim : ascii) (input : string) : string * bool * string :=
  match input with
  | EmptyString => (EmptyString, true, EmptyString)
  | String c rest =>
      if Ascii.eqb c delim then (String c EmptyString, false, rest)
      else
        let '(line, err, unread) := ReadString delim rest in
        (String c line, err, unread)
  end.

(** What [getUserInputs] prints, in order. *)
Definition prompts : list string :=
  ["Enter MongoDB connection string: "; "Enter database name: ";
   "Enter collection name: "].

Section Inputs.
Context `{UnicodeTrim}.

(** The three answers, then what was printed and the input left in the
    reader.  The errors of [ReadString] are dropped, as in the source. *)
Definition getUserInputs (stdin : string)
  : (string * string * string) * list string * string :=
  let stdout := ["Enter MongoDB connection string: "] in
  let '(mongoURI, _, stdin) := ReadString newline stdin in
  let mongoURI := TrimSpace mongoURI in
  let stdout := stdout ++ ["Enter database name: "] in
  let '(dbName, _, stdin) := ReadString newline stdin in
  let dbName := TrimSpace dbName in
  let stdout := stdout ++ ["Enter collection name: "] in
  let '(collectionName, _, stdin) := ReadString newline stdin in
  let collectionName := TrimSpace collectionName in
  ((mongoURI, dbName, collectionName), stdout, stdin).

End Inputs.

(** Blanks that [TrimSpace] removes on its ASCII path. *)
Definition blanks (s : string) : Prop :=
  Forall (fun c => asciiSpace c = true) (list_ascii_of_string s).

(** An answer as typed: no line break inside, and either empty or with
    a first and a last character that are ASCII and not blank. *)
Definition answer (t : string) : Prop :=
  (newline ∉ list_ascii_of_string t) /\
  (t = EmptyString \/
   exists c l d, list_ascii_of_string t = c :: l /\
                 last (c :: l) = Some d /\ plain c = true /\ plain d = true).

(** Blanks typed around an answer, on the same line. *)
Definition pad (s : string) : Prop :=
  blanks s /\ newline ∉ list_ascii_of_string s.

(** A line as typed: blanks, the answer, blanks, the line break. *)
Definition typed (a t b : string) : string :=
  a +:+ t +:+ b +:+ String newline EmptyString.

(** ** Collections

    A collection as the exporter expects it: every record carries an
    ObjectID [_id] other than the zero ObjectID, and no two records
    share one. *)
Definition keyed (store : list Doc) : Prop :=
  Forall (fun d => exists k, d !! "_id" = Some (VObjectID k) /\ IsZero k = false) store /\
  NoDup (map (field_of "_id") store).

(** ** Sample data

    A collection before and after one more record arrived, and what
    was typed for a local server. *)
Definition store_before : list Doc := [doc_of x01; doc_of x02].

Definition store_after : list Doc := [doc_of x01; doc_of x02; doc_of x03].

Definition carriage_return : ascii := "013"%char.

Definition typed_uri : string := "mongodb://localhost:27017".

(** * Theorems *)

Example Hex_nil : Hex NilObjectID = "000000000000000000000000".
Proof. reflexivity. Qed.

Example load_ex :
  oid_bytes (@loadLastID ascii_only (Some "  65A1b2c3d4e5f60718293a4b
")) =
  [x65; xa1; xb2; xc3; xd4; xe5; xf6; x07; x18; x29; x3a; x4b].
Proof. vm_compute. reflexivity. Qed.

(** ** The hexadecimal form of a key *)

Lemma oid_eq (a b : ObjectID) : oid_bytes a = oid_bytes b -> a = b.
Proof.
  destruct a as [x Hx], b as [y Hy]; simpl; intros ->.
  f_equal. apply (proof_irrel Hx Hy).
Qed.

Lemma Decode_pair (v : byte) (rest : string) :
  Decode (String (hexdigit (N.shiftr (Byte.to_N v) 4))
                 (String (hexdigit (N.land (Byte.to_N v) 15)) rest)) =
  match Decode rest with
  | Some vs => Some (v :: vs)
  | None => None
  end.
Proof. destruct v; reflexivity. Qed.

Lemma Decode_Encode (src : list byte) : Decode (EncodeToString src) = Some src.
Proof.
  induction src as [|v src IH]; [reflexivity|].
  change (EncodeToString (v :: src)) with
    (String (hexdigit (N.shiftr (Byte.to_N v) 4))
            (String (hexdigit (N.land (Byte.to_N v) 15)) (EncodeToString src))).
  rewrite Decode_pair, IH. reflexivity.
Qed.

Lemma length_Encode (src : list byte) :
  String.length (EncodeToString src) = 2 * length src.
Proof. induction src as [|v src IH]; simpl in *; lia. Qed.

Lemma ObjectIDFromHex_Hex (c : ObjectID) : ObjectIDFromHex (Hex c) = Some c.
Proof.
  unfold ObjectIDFromHex, Hex.
  rewrite length_Encode, Decode_Encode.
  pose proof (oid_len c) as Hc.
  assert (Nat.eqb (2 * length (oid_bytes c)) 24 = true) as ->
    by (apply Nat.eqb_eq; apply Nat.eqb_eq in Hc; lia).
  simpl negb. cbv iota.
  generalize (eq_refl (Nat.eqb (length (oid_bytes c)) 12)).
  generalize (Nat.eqb (length (oid_bytes c)) 12) at 2 3.
  intros [] E.
  - f_equal. apply oid_eq. reflexivity.
  - congruence.
Qed.

Section Trim.
Context `{UnicodeTrim}.

Lemma trim_start_plain c s : plain c = true -> trim_start (String c s) = inr (String c s).
Proof.
  unfold plain. intros [H1 H2]%andb_prop. simpl.
  apply negb_true_iff in H1, H2. rewrite H1, H2. reflexivity.
Qed.

Lemma trim_stop_plain c r : plain c = true -> trim_stop (c :: r) = inr (c :: r).
Proof.
  unfold plain. intros [H1 H2]%andb_prop. simpl.
  apply negb_true_iff in H1, H2. rewrite H1, H2. reflexivity.
Qed.

Lemma TrimSpace_plain (s : string) :
  Forall (fun c => plain c = true) (list_ascii_of_string s) -> TrimSpace s = s.
Proof.
  intros Hs. unfold TrimSpace.
  destruct s as [|c s]; [reflexivity|].
  rewrite trim_start_plain by (simpl in Hs; inversion Hs; assumption).
  assert (Hr : Forall (fun c => plain c = true) (rev (list_ascii_of_string (String c s))))
    by (apply Forall_rev; exact Hs).
  destruct (rev (list_ascii_of_string (String c s))) as [|d r] eqn:E.
  - simpl. apply (f_equal (@rev ascii)) in E. rewrite rev_involutive in E.
    simpl in E. discriminate.
  - rewrite trim_stop_plain by (inversion Hr; assumption).
    rewrite <- E, rev_involutive. apply string_of_list_ascii_of_string.
Qed.
End Trim.

Lemma plain_Encode (src : list byte) :
  Forall (fun c => plain c = true) (list_ascii_of_string (EncodeToString src)).
Proof.
  induction src as [|v src IH]; simpl; [constructor|].
  constructor; [|constructor]; [| |exact IH]; destruct v; reflexivity.
Qed.


(** ** The checkpoint file *)

Lemma fromHexChar_lower (c : ascii) : fromHexChar (to_lower c) = fromHexChar c.
Proof. destruct c as [[] [] [] [] [] [] [] []]; reflexivity. Qed.

Lemma fromHexChar_digit (c : ascii) (a : N) :
  fromHexChar c = Some a -> (a < 16)%N /\ hexdigit a = to_lower c.
Proof.
  destruct c as [[] [] [] [] [] [] [] []]; vm_compute; intros E;
    try discriminate E; injection E as <-; split; reflexivity.
Qed.

Lemma nibbles (a b : N) (v : byte) :
  (a < 16)%N -> (b < 16)%N ->
  Byte.of_N (N.lor (N.shiftl a 4) b) = Some v ->
  N.shiftr (Byte.to_N v) 4 = a /\ N.land (Byte.to_N v) 15 = b.
Proof.
  intros Ha Hb E. apply Byte.to_of_N in E. rewrite E. clear E v.
  replace a with (N.of_nat (N.to_nat a)) by lia.
  replace b with (N.of_nat (N.to_nat b)) by lia.
  assert (Ha' : N.to_nat a < 16) by lia. assert (Hb' : N.to_nat b < 16) by lia.
  revert Ha' Hb'. generalize (N.to_nat a) (N.to_nat b). clear. intros n m Hn Hm.
  do 16 (destruct n as [|n]; [do 16 (destruct m as [|m]; [split; reflexivity|]); lia|]).
  lia.
Qed.

Lemma Decode_spelling (s : string) :
  (forall b, Decode s = Some b -> lower s = EncodeToString b) /\
  (forall c b, Decode (String c s) = Some b -> lower (String c s) = EncodeToString b).
Proof.
  induction s as [|a s [IH1 IH2]].
  - split; [intros b E; injection E as <-; reflexivity|]. intros c b E. discriminate.
  - split; [apply IH2|]. intros c b E.
    change (Decode (String c (String a s))) with
      (match fromHexChar c, fromHexChar a with
       | Some x, Some y =>
           match Byte.of_N (N.lor (N.shiftl x 4) y), Decode s with
           | Some v, Some vs => Some (v :: vs)
           | _, _ => None
           end
       | _, _ => None
       end) in E.
    destruct (fromHexChar c) as [x|] eqn:Ex; [|discriminate].
    destruct (fromHexChar a) as [y|] eqn:Ey; [|discriminate].
    destruct (Byte.of_N _) as [v|] eqn:Ev; [|discriminate].
    destruct (Decode s) as [vs|] eqn:Es; [|discriminate].
    injection E as <-.
    apply fromHexChar_digit in Ex as [Hx Hxc], Ey as [Hy Hyc].
    destruct (nibbles x y v Hx Hy Ev) as [Hhi Hlo].
    simpl. rewrite Hhi, Hlo, Hxc, Hyc, (IH1 vs eq_refl). reflexivity.
Qed.

Lemma Decode_lower (s : string) : Decode (lower s) = Decode s.
Proof.
  assert (H : Decode (lower s) = Decode s /\
              forall c, Decode (lower (String c s)) = Decode (String c s)).
  { induction s as [|a s [IH1 IH2]].
    - split; reflexivity.
    - split; [apply IH2|]. intros c.
      change (lower (String c (String a s))) with
        (String (to_lower c) (String (to_lower a) (lower s))).
      cbn [Decode]. rewrite !fromHexChar_lower, IH1. reflexivity. }
  apply H.
Qed.

Lemma length_lower (s : string) : String.length (lower s) = String.length s.
Proof. induction s as [|c s IH]; simpl; congruence. Qed.

Lemma ObjectIDFromHex_lower (s : string) : ObjectIDFromHex (lower s) = ObjectIDFromHex s.
Proof. unfold ObjectIDFromHex. rewrite length_lower, Decode_lower. reflexivity. Qed.

Lemma ObjectIDFromHex_iff (s : string) (id : ObjectID) :
  ObjectIDFromHex s = Some id <-> lower s = Hex id.
Proof.
  split.
  - unfold ObjectIDFromHex. destruct (negb _); [discriminate|].
    destruct (Decode s) as [b|] eqn:Eb; [|discriminate].
    apply (proj1 (Decode_spelling s)) in Eb. rewrite Eb. clear Eb.
    generalize (eq_refl (Nat.eqb (length b) 12)).
    generalize (Nat.eqb (length b) 12) at 2 3.
    intros [] E H; [|discriminate]. injection H as <-. reflexivity.
  - intros E. rewrite <- ObjectIDFromHex_lower, E. apply ObjectIDFromHex_Hex.
Qed.

Section Checkpoint.
Context `{UnicodeTrim}.

Lemma loadLastID_Hex (c : ObjectID) : loadLastID (Some (Hex c)) = c.
Proof.
  simpl. unfold Hex at 1.
  rewrite TrimSpace_plain by apply plain_Encode.
  fold (Hex c). rewrite ObjectIDFromHex_Hex. reflexivity.
Qed.
End Checkpoint.

(** C6. [loadLastID] returns a cursor for every state of the checkpoint
    file: the nil cursor when the file cannot be read, the nil cursor
    when its trimmed content is not the hexadecimal spelling (in either
    letter case) of a key, and the key itself when it is; a cursor other
    than nil is only ever returned for a file that spells it. *)
Theorem loadLastID_never_fails `{UnicodeTrim} (file : option string) :
  (file = None -> loadLastID file = NilObjectID) /\
  (forall data, file = Some data ->
     (forall id, lower (TrimSpace data) = Hex id -> loadLastID file = id) /\
     ((forall id, lower (TrimSpace data) <> Hex id) -> loadLastID file = NilObjectID)) /\
  (loadLastID file <> NilObjectID ->
     exists data, file = Some data /\ lower (TrimSpace data) = Hex (loadLastID file)).
Proof.
  split; [intros ->; reflexivity|]. split.
  - intros data ->. simpl. split.
    + intros id E. apply ObjectIDFromHex_iff in E. rewrite E. reflexivity.
    + intros Hno. destruct (ObjectIDFromHex (TrimSpace data)) as [id|] eqn:E; [|reflexivity].
      apply ObjectIDFromHex_iff in E. destruct (Hno id E).
  - destruct file as [data|]; simpl; [|intros Hn; destruct Hn; reflexivity].
    destruct (ObjectIDFromHex (TrimSpace data)) as [id|] eqn:E;
      [|intros Hn; destruct Hn; reflexivity].
    intros _. exists data. split; [reflexivity|]. apply ObjectIDFromHex_iff, E.
Qed.

(** C6 on a file with surrounding blanks and an upper-case digit. *)
Lemma loadLastID_never_fails_witness :
  @loadLastID ascii_only (Some "  65A1b2c3d4e5f60718293a4b
") = sample_oid.
Proof.
  apply (proj1 (proj2 (@loadLastID_never_fails ascii_only
                         (Some "  65A1b2c3d4e5f60718293a4b
"))) "  65A1b2c3d4e5f60718293a4b
" eq_refl).
  reflexivity.
Defined.

(** C7. After a [saveLastID] that succeeded, whatever the file held
    before, [loadLastID] returns exactly the saved cursor: the 24
    hexadecimal digits written are left alone by [TrimSpace] and decode
    to the same 12 bytes. *)
Theorem save_load_roundtrip `{UnicodeTrim} (c : ObjectID) (file : option string) :
  loadLastID (saveLastID SaveOk c file) = c.
Proof. apply loadLastID_Hex. Qed.

(** ** The store's order and its sort *)

Lemma lex_leb_total (a b : list N) : lex_leb a b = false -> lex_leb b a = true.
Proof.
  revert b; induction a as [|x a IH]; intros [|y b]; simpl; try congruence.
  destruct (N.ltb_spec x y), (N.eqb_spec x y), (N.ltb_spec y x), (N.eqb_spec y x);
    try congruence; try lia; auto.
Qed.

Lemma lex_leb_trans (a b c : list N) :
  lex_leb a b = true -> lex_leb b c = true -> lex_leb a c = true.
Proof.
  revert b c; induction a as [|x a IH]; intros [|y b] [|z c]; simpl; try congruence.
  destruct (N.ltb_spec x y), (N.eqb_spec x y), (N.ltb_spec y z), (N.eqb_spec y z),
    (N.ltb_spec x z), (N.eqb_spec x z); try congruence; try lia; eauto.
Qed.

Lemma value_leb_total (a b : Value) : value_leb a b = false -> value_leb b a = true.
Proof.
  unfold value_leb.
  destruct (N.ltb_spec (bson_rank a) (bson_rank b)), (N.eqb_spec (bson_rank a) (bson_rank b)),
    (N.ltb_spec (bson_rank b) (bson_rank a)), (N.eqb_spec (bson_rank b) (bson_rank a));
    try congruence; try lia. apply lex_leb_total.
Qed.

Lemma value_leb_trans (a b c : Value) :
  value_leb a b = true -> value_leb b c = true -> value_leb a c = true.
Proof.
  unfold value_leb.
  destruct (N.ltb_spec (bson_rank a) (bson_rank b)), (N.eqb_spec (bson_rank a) (bson_rank b)),
    (N.ltb_spec (bson_rank b) (bson_rank c)), (N.eqb_spec (bson_rank b) (bson_rank c)),
    (N.ltb_spec (bson_rank a) (bson_rank c)), (N.eqb_spec (bson_rank a) (bson_rank c));
    try congruence; try lia. apply lex_leb_trans.
Qed.

Lemma elem_of_insert_by f d l x : x ∈ insert_by f d l <-> x = d \/ x ∈ l.
Proof.
  induction l as [|y l IH]; simpl.
  - rewrite list_elem_of_singleton. rewrite elem_of_nil. tauto.
  - destruct (value_leb _ _).
    + rewrite elem_of_cons. tauto.
    + rewrite !elem_of_cons, IH. tauto.
Qed.

Lemma elem_of_sort_by f l x : x ∈ sort_by f l <-> x ∈ l.
Proof.
  induction l as [|y l IH]; simpl; [tauto|].
  rewrite elem_of_insert_by, elem_of_cons, IH. tauto.
Qed.

Lemma length_insert_by f d l : length (insert_by f d l) = S (length l).
Proof.
  induction l as [|y l IH]; simpl; [reflexivity|].
  destruct (value_leb _ _); simpl; lia.
Qed.

Lemma length_sort_by f l : length (sort_by f l) = length l.
Proof.
  induction l as [|y l IH]; simpl; [reflexivity|].
  rewrite length_insert_by, IH. reflexivity.
Qed.

Lemma ascending_insert_by f d l : ascending f l -> ascending f (insert_by f d l).
Proof.
  unfold ascending. induction 1 as [|y l Hl IH Hy]; simpl.
  - repeat constructor.
  - destruct (value_leb (field_of f d) (field_of f y)) eqn:E.
    + constructor; [constructor; assumption|].
      constructor; [exact E|].
      eapply Forall_impl; [exact Hy|]. simpl. intros z Hz.
      eapply value_leb_trans; eassumption.
    + constructor; [exact IH|].
      apply Forall_forall. intros z Hz.
      apply elem_of_insert_by in Hz as [->|Hz].
      * apply value_leb_total, E.
      * rewrite Forall_forall in Hy. apply Hy, Hz.
Qed.

Lemma ascending_sort_by f l : ascending f (sort_by f l).
Proof.
  induction l as [|y l IH]; simpl; [constructor|].
  apply ascending_insert_by, IH.
Qed.

Lemma ascending_take f n l : ascending f l -> ascending f (take n l).
Proof.
  unfold ascending. intros Hl; revert n.
  induction Hl as [|y l Hl IH Hy]; intros [|n]; simpl; try constructor.
  - apply IH.
  - apply Forall_take, Hy.
Qed.

Lemma ascending_last_max f l d :
  ascending f l -> last l = Some d ->
  forall x, x ∈ l -> value_leb (field_of f x) (field_of f d) = true.
Proof.
  unfold ascending. induction 1 as [|y l Hl IH Hy]; intros Hd x Hx.
  - discriminate.
  - destruct l as [|z l].
    + simpl in Hd. injection Hd as <-. apply list_elem_of_singleton in Hx as ->.
      destruct (value_leb (field_of f y) (field_of f y)) eqn:E; [reflexivity|].
      apply value_leb_total in E as E'. congruence.
    + rewrite last_cons_cons in Hd.
      apply elem_of_cons in Hx as [->|Hx]; [|apply IH; assumption].
      rewrite Forall_forall in Hy. apply Hy. eapply last_Some_elem_of, Hd.
Qed.

(** ** The page a lane fetches *)

Lemma mongoFind_lane (store : list Doc) (c : ObjectID) :
  mongoFind store (lane_query c) =
  take (Z.to_nat batchSize) (sort_by "_id" (filter (fun d => matches (lane_filter c) d) store)).
Proof. reflexivity. Qed.

Lemma IsZero_Nil : IsZero NilObjectID = true.
Proof. reflexivity. Qed.

Lemma elem_of_mongoFind_lane store c d :
  d ∈ mongoFind store (lane_query c) ->
  d ∈ store /\ matches (lane_filter c) d = true.
Proof.
  rewrite mongoFind_lane. intros Hd.
  apply subseteq_take in Hd. apply elem_of_sort_by in Hd.
  apply list_elem_of_filter in Hd as [Hm Hd]. split; [exact Hd|].
  destruct (matches (lane_filter c) d); [reflexivity|contradiction].
Qed.

Lemma iter_finds workerID e st w :
  finds (trace (exportWorker_iter workerID e st w).2) =
  finds (trace w) ++ [lane_query (lastID st)].
Proof.
  unfold exportWorker_iter.
  destruct (env_find e _) as [| |results]; simpl;
    unfold finds; rewrite ?omap_app; simpl; rewrite ?app_nil_r; try reflexivity.
  destruct (Nat.eqb (length results) 0), (env_create e), (env_encode e); simpl;
    rewrite ?omap_app; simpl; rewrite ?app_nil_r; try reflexivity.
  destruct (assert_ObjectID _); simpl; rewrite ?omap_app; simpl; rewrite ?app_nil_r;
    try reflexivity.
  destruct (env_save e); simpl; rewrite ?omap_app; simpl; rewrite ?app_nil_r; reflexivity.
Qed.

(** C1. The one [Find] of an iteration carries [lane_query] of the
    lane's cursor: limit 100000, sort ascending on [_id].  Its answer is
    in ascending order and has at most 100000 records.  With a non-nil
    cursor [c] the filter is [_id > c] and every record of the page is a
    record of the store whose key is not less than or equal to [c]; with
    the nil cursor the filter is empty and the page is the start of the
    whole store in key order. *)
Theorem fetch_after_cursor (workerID : Z) (e : IterEnv) (st : LaneState)
        (w : World) (store : list Doc) :
  let q := lane_query (lastID st) in
  let page := mongoFind store q in
  finds (trace (exportWorker_iter workerID e st w).2) = finds (trace w) ++ [q] /\
  Limit (q_opts q) = 100000%Z /\
  Sort (q_opts q) = [("_id", 1%Z)] /\
  ascending "_id" page /\
  (Z.of_nat (length page) <= 100000)%Z /\
  (IsZero (lastID st) = false ->
     q_filter q = FilterGt "_id" (lastID st) /\
     forall d, d ∈ page ->
       d ∈ store /\
       (exists k, d !! "_id" = Some (VObjectID k)) /\
       value_leb (field_of "_id" d) (VObjectID (lastID st)) = false) /\
  (IsZero (lastID st) = true ->
     q_filter q = FilterAll /\
     page = take (Z.to_nat batchSize) (sort_by "_id" store)).
Proof.
  intros q page. split; [apply iter_finds|].
  split; [reflexivity|]. split; [reflexivity|].
  split; [apply ascending_take, ascending_sort_by|].
  split; [subst page q; rewrite mongoFind_lane, length_take; unfold batchSize; lia|].
  split.
  - intros Hz. subst page q.
    assert (Hf : lane_filter (lastID st) = FilterGt "_id" (lastID st))
      by (unfold lane_filter; rewrite Hz; reflexivity).
    split; [exact Hf|].
    intros d [Hd Hm]%elem_of_mongoFind_lane. split; [exact Hd|].
    rewrite Hf in Hm. simpl in Hm. unfold field_of.
    destruct (d !! "_id") as [[| |k|]|]; try discriminate.
    split; [eexists; reflexivity|].
    unfold value_ltb in Hm. apply negb_true_iff in Hm. exact Hm.
  - intros Hz. subst page q.
    assert (Hf : lane_filter (lastID st) = FilterAll)
      by (unfold lane_filter; rewrite Hz; reflexivity).
    split; [exact Hf|].
    rewrite mongoFind_lane, Hf. f_equal. f_equal.
    induction store as [|d store IH]; [reflexivity|].
    rewrite filter_cons_True by exact I. f_equal. exact IH.
Qed.

(** C1 on a collection with keys 5, 2, 9 and the cursor 2. *)
Lemma fetch_after_cursor_witness :
  IsZero (oid_of x02) = false /\
  forall d, d ∈ mongoFind sample_store (lane_query (oid_of x02)) ->
    value_leb (field_of "_id" d) (VObjectID (oid_of x02)) = false.
Proof.
  split; [reflexivity|]. intros d Hd.
  destruct (fetch_after_cursor 0 (store_env sample_store SaveOk)
              (mkLane (oid_of x02) 2) (world0 None) sample_store)
    as (_ & _ & _ & _ & _ & Hgt & _).
  destruct (Hgt eq_refl) as [_ Hall]. apply (Hall d Hd).
Defined.

(** ** One iteration of the lane *)

Lemma iter_specP workerID e st w :
  iter_spec workerID e st w (exportWorker_iter workerID e st w).
Proof.
  unfold exportWorker_iter.
  destruct (env_find e (lane_query (lastID st))) as [| |results] eqn:Hf.
  - unfold emit; simpl; rewrite <- app_assoc. by apply iter_fetch_failed.
  - unfold emit; simpl; rewrite <- app_assoc. by apply iter_decode_failed.
  - destruct results as [|d results].
    { unfold emit; simpl; rewrite <- app_assoc. by apply iter_no_more. }
    set (rs := d :: results) in *.
    assert (Hne : rs <> []) by discriminate.
    change (Nat.eqb (length rs) 0) with false. cbv iota.
    destruct (env_create e) eqn:Hc; simpl negb; cbv iota.
    2:{ unfold emit; simpl; rewrite <- app_assoc. by eapply iter_create_failed. }
    destruct (env_encode e) eqn:He; simpl negb; cbv iota.
    2:{ unfold emit, os_Create, put_file, emit; simpl; rewrite <- !app_assoc.
        by eapply iter_encode_failed. }
    destruct (assert_ObjectID (last_id_field rs)) as [id|] eqn:Ha.
    2:{ unfold Encode, emit, os_Create, put_file, emit; simpl; rewrite <- !app_assoc.
        by eapply iter_panic. }
    pose proof (iter_exported workerID e st w rs id Hf Hne Hc He Ha) as HH.
    simpl in HH.
    unfold saveLastID_call, Encode, emit, os_Create, put_file, emit.
    destruct (env_save e); simpl in *; unfold emit; simpl; rewrite <- ?app_assoc; simpl;
      exact HH.
Qed.

Ltac iter_inv H :=
  match type of H with
  | exportWorker_iter ?wid ?e ?st ?w = _ =>
      let S := fresh "S" in
      pose proof (iter_specP wid e st w) as S; rewrite H in S;
      inversion S; subst; clear S
  end.

Lemma assert_ObjectID_Some (v : option Value) (id : ObjectID) :
  assert_ObjectID v = Some id <-> v = Some (VObjectID id).
Proof.
  destruct v as [[| |k|]|]; simpl; split; intros E; try discriminate; congruence.
Qed.

Lemma saves_app (a b : list Event) : saves (a ++ b) = saves a ++ saves b.
Proof. apply omap_app. Qed.

Lemma saves_warning (o : SaveOutcome) : saves (save_warning o) = [].
Proof. destruct o; reflexivity. Qed.

Lemma mongoFind_lane_ascending (store : list Doc) (c : ObjectID) :
  ascending "_id" (mongoFind store (lane_query c)).
Proof. rewrite mongoFind_lane. apply ascending_take, ascending_sort_by. Qed.

(** C3. When an iteration has processed a non-empty page that came back
    in ascending [_id] order and goes on to the next one, the key it
    passed to [saveLastID] and the cursor of the next fetch are the [_id]
    of the page's last record, and no record of the page has a larger
    key; when the save succeeds, that key is what the checkpoint file
    holds and what [loadLastID] reads back. *)
Theorem checkpoint_is_page_maximum `{UnicodeTrim} (workerID : Z) (e : IterEnv)
        (st : LaneState) (w : World) (results : list Doc)
        (st' : LaneState) (w' : World) :
  env_find e (lane_query (lastID st)) = Results results ->
  ascending "_id" results ->
  exportWorker_iter workerID e st w = (Continue st', w') ->
  results <> [] /\
  last_id_field results = Some (VObjectID (lastID st')) /\
  (forall d, d ∈ results ->
     value_leb (field_of "_id" d) (VObjectID (lastID st')) = true) /\
  saves (trace w') = saves (trace w) ++ [lastID st'] /\
  (env_save e = SaveOk ->
     ckpt w' = Some (Hex (lastID st')) /\ loadLastID (ckpt w') = lastID st') /\
  (forall e2,
     finds (trace (exportWorker_iter workerID e2 st' w').2) =
     finds (trace w') ++ [lane_query (lastID st')]).
Proof.
  intros Hf Hasc Hit. iter_inv Hit.
  match goal with
  | Hf' : env_find _ _ = Results ?r, Ha : assert_ObjectID _ = Some _ |- _ =>
      assert (r = results) as -> by congruence;
      apply assert_ObjectID_Some in Ha as Hl
  end.
  cbn [trace ckpt lastID]. split; [assumption|]. split; [assumption|].
  split; [|split; [|split]].
  - intros d Hd. unfold last_id_field in Hl.
    destruct (last results) as [dl|] eqn:El; [|discriminate].
    replace (VObjectID id) with (field_of "_id" dl)
      by (unfold field_of; rewrite Hl; reflexivity).
    eapply ascending_last_max; eassumption.
  - rewrite saves_app. destruct (env_save e); reflexivity.
  - intros ->. simpl. split; [reflexivity|]. apply loadLastID_Hex.
  - intros e2. apply iter_finds.
Qed.

(** C3 on a collection of three records: the first page ends at the
    largest key, which is saved and read back. *)
Lemma checkpoint_is_page_maximum_witness :
  last_id_field (mongoFind sample_store (lane_query NilObjectID)) =
    Some (VObjectID (oid_of x09)) /\
  @loadLastID ascii_only
    (ckpt (exportWorker_iter 0 (store_env sample_store SaveOk)
             (lane_start NilObjectID) (world0 None)).2) = oid_of x09.
Proof.
  destruct (@checkpoint_is_page_maximum ascii_only 0 (store_env sample_store SaveOk)
              (lane_start NilObjectID) (world0 None)
              (mongoFind sample_store (lane_query NilObjectID))
              (mkLane (oid_of x09) 2)
              (exportWorker_iter 0 (store_env sample_store SaveOk)
                 (lane_start NilObjectID) (world0 None)).2)
    as (_ & Hlast & _ & _ & Hsave & _).
  - reflexivity.
  - apply mongoFind_lane_ascending.
  - vm_compute. reflexivity.
  - split; [exact Hlast|]. exact (proj2 (Hsave eq_refl)).
Defined.

Lemma mongoFind_nil (q : Query) : mongoFind [] q = [].
Proof.
  unfold mongoFind, apply_limit, apply_sort. simpl.
  destruct (Sort (q_opts q)) as [|[f [|[| |]|]] [|]]; simpl;
    destruct (Z.eqb _ _); try reflexivity; apply take_nil.
Qed.

Lemma lane_filter_Nil : lane_filter NilObjectID = FilterAll.
Proof. reflexivity. Qed.

Lemma mongoFind_single (d : Doc) :
  mongoFind [d] (lane_query NilObjectID) = [d].
Proof.
  rewrite mongoFind_lane, lane_filter_Nil.
  rewrite filter_cons_True by exact I. rewrite filter_nil. simpl sort_by.
  apply take_ge. simpl. unfold batchSize. lia.
Qed.

Lemma iter_panic_iff workerID e st w :
  (exportWorker_iter workerID e st w).1 = Panic <->
  exists results,
    env_find e (lane_query (lastID st)) = Results results /\
    results <> [] /\ env_create e = true /\ env_encode e = true /\
    forall id, last_id_field results <> Some (VObjectID id).
Proof.
  split.
  - intros Hp. destruct (exportWorker_iter workerID e st w) as [out w'] eqn:Hit.
    simpl in Hp. subst out. iter_inv Hit.
    eexists. repeat (split; [eassumption|]).
    intros id Hid. apply assert_ObjectID_Some in Hid. congruence.
  - intros (results & Hf & Hne & Hc & He & Hl).
    destruct (iter_specP workerID e st w); try congruence; try reflexivity.
    match goal with
    | Ha : assert_ObjectID _ = Some ?k |- _ => apply assert_ObjectID_Some in Ha
    end.
    exfalso. eapply Hl. replace results with results0 by congruence. eassumption.
Qed.

Lemma last_id_field_Forall (results : list Doc) :
  results <> [] ->
  Forall (fun d : Doc => exists id, d !! "_id" = Some (VObjectID id)) results ->
  exists id, last_id_field results = Some (VObjectID id).
Proof.
  intros Hne Hall. unfold last_id_field.
  destruct (last results) as [d|] eqn:El.
  - rewrite Forall_forall in Hall. apply Hall. eapply last_Some_elem_of, El.
  - apply last_None in El. contradiction.
Qed.

(** C10. An iteration panics exactly when the fetch returned a non-empty
    page, the batch file was created and encoded, and the [_id] of the
    page's last record is not an ObjectID; when every record of the page
    carries an ObjectID [_id] it does not panic.  A page whose only
    record has no [_id], and one whose [_id] is a string, do panic. *)
Theorem last_id_assertion_panics (workerID : Z) (e : IterEnv) (st : LaneState) (w : World) :
  ((exportWorker_iter workerID e st w).1 = Panic <->
   exists results,
     env_find e (lane_query (lastID st)) = Results results /\
     results <> [] /\ env_create e = true /\ env_encode e = true /\
     forall id, last_id_field results <> Some (VObjectID id)) /\
  (forall results,
     env_find e (lane_query (lastID st)) = Results results ->
     Forall (fun d : Doc => exists id, d !! "_id" = Some (VObjectID id)) results ->
     (exportWorker_iter workerID e st w).1 <> Panic) /\
  (forall o,
     (exportWorker_iter workerID (store_env [∅] o) (lane_start NilObjectID) w).1 = Panic) /\
  (forall o s,
     (exportWorker_iter workerID (store_env [{["_id" := VString s]}] o)
                        (lane_start NilObjectID) w).1 = Panic).
Proof.
  split; [apply iter_panic_iff|]. split; [|split].
  - intros results Hf Hall Hp.
    apply iter_panic_iff in Hp as (results' & Hf' & Hne & _ & _ & Hl).
    assert (results' = results) as -> by congruence.
    destruct (last_id_field_Forall results Hne Hall) as [id Hid].
    exact (Hl id Hid).
  - intros o. apply iter_panic_iff. exists [∅].
    split; [simpl; rewrite mongoFind_single; reflexivity|].
    repeat (split; [done|]). intros id. unfold last_id_field. simpl.
    rewrite lookup_empty. discriminate.
  - intros o s. apply iter_panic_iff. exists [{["_id" := VString s]}].
    split; [simpl; rewrite mongoFind_single; reflexivity|].
    repeat (split; [done|]). intros id. unfold last_id_field. simpl.
    rewrite lookup_singleton_eq. discriminate.
Qed.

(** C10 on a page of one record with an ObjectID key. *)
Lemma last_id_assertion_panics_witness :
  (exportWorker_iter 0 (store_env [doc_of x01] SaveOk) (lane_start NilObjectID)
                     (world0 None)).1 <> Panic.
Proof.
  apply (proj1 (proj2 (last_id_assertion_panics 0 (store_env [doc_of x01] SaveOk)
                         (lane_start NilObjectID) (world0 None))) [doc_of x01]).
  - vm_compute. reflexivity.
  - repeat constructor. exists (oid_of x01). reflexivity.
Defined.

(** C8. When the first fetch of a lane returns the empty page, the loop
    ends with [Break] after that one fetch: the export directory and the
    checkpoint file are as before, the trace gained the fetch and the
    log line only (no file creation, no [saveLastID]), and a checkpoint
    file that was missing still reads as the nil cursor. *)
Theorem empty_page_done `{UnicodeTrim} (workerID : Z) (env : nat -> IterEnv)
        (fuel : nat) (c : ObjectID) (w : World) :
  env_find (env O) (lane_query c) = Results [] ->
  exists w',
    exportWorker_loop workerID env (S fuel) (lane_start c) w = (Break, w') /\
    files w' = files w /\
    ckpt w' = ckpt w /\
    trace w' = trace w ++ [EvFind (lane_query c); EvLog (LogNoMore workerID)] /\
    creates (trace w') = creates (trace w) /\
    saves (trace w') = saves (trace w) /\
    loadLastID (ckpt w') = loadLastID (ckpt w) /\
    (ckpt w = None -> loadLastID (ckpt w') = NilObjectID).
Proof.
  intros Hf. simpl.
  destruct (iter_specP workerID (env O) (lane_start c) w);
    cbn [lastID lane_start] in *; try congruence.
  eexists. split; [reflexivity|]. cbn [files ckpt trace].
  repeat (split; [reflexivity|]).
  split; [unfold creates; rewrite omap_app; simpl; apply app_nil_r|].
  split; [unfold saves; rewrite omap_app; simpl; apply app_nil_r|].
  split; [reflexivity|]. intros ->. reflexivity.
Qed.

(** C8 on the empty collection, from a missing checkpoint file. *)
Lemma empty_page_done_witness :
  exists w',
    exportWorker_loop 0 (fun _ => store_env [] SaveOk) 1 (lane_start NilObjectID)
                      (world0 None) = (Break, w') /\
    files w' = ∅ /\ ckpt w' = None /\ creates (trace w') = [] /\ saves (trace w') = [].
Proof.
  destruct (@empty_page_done ascii_only 0 (fun _ => store_env [] SaveOk) 0
              NilObjectID (world0 None) eq_refl)
    as (w' & Hl & Hf & Hc & _ & Hcr & Hs & _).
  exists w'. repeat split; assumption.
Defined.

(** ** Traces of the inner loop *)

Lemma save_follows_write_app (a b : list Event) :
  save_follows_write a -> save_follows_write b -> save_follows_write (a ++ b).
Proof.
  intros Ha Hb pre id post E.
  apply app_eq_app in E as [l [[E1 E2]|[E1 E2]]].
  - destruct l as [|x l].
    + simpl in E2. symmetry in E2. destruct (Hb [] id post E2) as (pre' & p & r & Hp & _).
      destruct pre'; discriminate.
    + injection E2 as <- E2. apply (Ha pre id l). exact E1.
  - destruct (Hb l id post E2) as (pre' & p & r & -> & Hl).
    exists (a ++ pre'), p, r. split; [|exact Hl].
    rewrite E1, app_assoc. reflexivity.
Qed.

Lemma save_follows_write_nil : save_follows_write [].
Proof. intros [|? ?] ? ? E; discriminate. Qed.

Ltac split_trace H :=
  match type of H with
  | _ = ?pre ++ _ =>
      repeat (destruct pre as [|? pre];
              [ try discriminate H
              | simpl in H; first [ injection H as <- H | discriminate H ] ])
  end.

Lemma iter_events workerID e st w out w' :
  exportWorker_iter workerID e st w = (out, w') ->
  exists evs, trace w' = trace w ++ evs /\ save_follows_write evs.
Proof.
  intros Hit. iter_inv Hit; cbn [trace]; eexists; (split; [reflexivity|]);
    intros pre k post E; simpl in E; try (split_trace E; fail).
  destruct (env_save e); simpl in E; split_trace E.
  all: try (simpl in E; injection E as <- <-).
  all: eexists [_], _, _; split; [reflexivity|eassumption].
Qed.

Lemma iter_ckpt workerID e st w out w' :
  exportWorker_iter workerID e st w = (out, w') ->
  exists evs, trace w' = trace w ++ evs /\
    (ckpt w' = ckpt w \/ ckpt_of_written_batch evs (ckpt w')).
Proof.
  intros Hit. iter_inv Hit; cbn [trace ckpt]; eexists; (split; [reflexivity|]);
    try (left; reflexivity).
  destruct (env_save e) as [|n|]; simpl; [left; reflexivity| |];
    right; eexists _, _, _; (split; [|split; [eassumption|]]).
  - apply list_elem_of_In; simpl; auto.
  - right. eexists. reflexivity.
  - apply list_elem_of_In; simpl; auto.
  - left. reflexivity.
Qed.

Lemma ckpt_of_written_batch_mono (a b c : list Event) (file : option string) :
  ckpt_of_written_batch b file -> ckpt_of_written_batch (a ++ b ++ c) file.
Proof.
  intros (p & r & id & Hin & Hl & Hf). exists p, r, id.
  split; [|split; assumption]. rewrite !elem_of_app. auto.
Qed.

Lemma loop_events workerID env fuel :
  forall st w out w',
  exportWorker_loop workerID env fuel st w = (out, w') ->
  exists evs, trace w' = trace w ++ evs /\
    save_follows_write evs /\
    (ckpt w' = ckpt w \/ ckpt_of_written_batch evs (ckpt w')).
Proof.
  revert env. induction fuel as [|fuel IH]; intros env st w out w' Hl.
  - injection Hl as <- <-. exists []. rewrite app_nil_r.
    split; [reflexivity|]. split; [apply save_follows_write_nil|]. left; reflexivity.
  - simpl in Hl.
    destruct (exportWorker_iter workerID (env O) st w) as [o1 w1] eqn:Hit.
    destruct (iter_events _ _ _ _ _ _ Hit) as (evs1 & Ht1 & Hs1).
    destruct (iter_ckpt _ _ _ _ _ _ Hit) as (evs1' & Ht1' & Hc1).
    assert (evs1' = evs1) as -> by (rewrite Ht1 in Ht1'; eapply app_inv_head; eauto).
    destruct o1 as [st1| | |].
    2,3,4: injection Hl as <- <-; exists evs1; auto.
    apply IH in Hl as (evs2 & Ht2 & Hs2 & Hc2).
    exists (evs1 ++ evs2). split; [rewrite Ht2, Ht1, app_assoc; reflexivity|].
    split; [apply save_follows_write_app; assumption|].
    destruct Hc2 as [Hc2|Hc2].
    + rewrite Hc2. destruct Hc1 as [Hc1|Hc1]; [left; exact Hc1|right].
      apply (ckpt_of_written_batch_mono [] evs1 evs2). exact Hc1.
    + right. rewrite <- (app_nil_r evs2).
      apply (ckpt_of_written_batch_mono evs1 evs2 []). exact Hc2.
Qed.

(** C2. An iteration that meets a fetch, decode, file-creation or encode
    error returns without touching the checkpoint file and without a
    [saveLastID] call.  Over the whole loop, every [saveLastID] call
    comes right after the creation and the complete encoding of the batch
    file whose last record carries the saved key, and at the end the
    checkpoint file is either what it was or what a save for one of the
    batches encoded during the loop left in it. *)
Theorem checkpoint_only_after_write (workerID : Z) :
  (forall e st w,
     (env_find e (lane_query (lastID st)) = FindError \/
      env_find e (lane_query (lastID st)) = DecodeError \/
      exists results, env_find e (lane_query (lastID st)) = Results results /\
        results <> [] /\ (env_create e = false \/ env_encode e = false)) ->
     exists w', exportWorker_iter workerID e st w = (Return, w') /\
       ckpt w' = ckpt w /\ saves (trace w') = saves (trace w)) /\
  (forall env fuel st w out w',
     exportWorker_loop workerID env fuel st w = (out, w') ->
     exists evs, trace w' = trace w ++ evs /\
       save_follows_write evs /\
       (ckpt w' = ckpt w \/ ckpt_of_written_batch evs (ckpt w'))).
Proof.
  split; [|intros env fuel; apply loop_events].
  intros e st w Hfail.
  destruct (iter_specP workerID e st w);
    try (exfalso;
         destruct Hfail as [Hf|[Hf|(r & Hf & Hne & [Hc|He])]]; try congruence;
         assert (r = []) as -> by congruence; contradiction).
  all: eexists; (split; [reflexivity|]); cbn [ckpt trace];
    rewrite ?saves_app; simpl; rewrite ?app_nil_r; split; reflexivity.
Qed.

(** C2 on a [Find] that fails. *)
Lemma checkpoint_only_after_write_witness :
  exists w',
    exportWorker_iter 0 failing_env (lane_start NilObjectID) (world0 None) = (Return, w') /\
    ckpt w' = None /\ saves (trace w') = [].
Proof.
  apply (proj1 (checkpoint_only_after_write 0) failing_env
               (lane_start NilObjectID) (world0 None)).
  left. reflexivity.
Defined.

(** ** Batch file names *)

Lemma wrap_int_id (z : Z) : (- 2 ^ 63 <= z < 2 ^ 63)%Z -> wrap_int z = z.
Proof.
  intros Hz. unfold wrap_int.
  rewrite Z.mod_small by lia. lia.
Qed.

Lemma creates_app (a b : list Event) : creates (a ++ b) = creates a ++ creates b.
Proof. apply omap_app. Qed.

Lemma encodes_app (a b : list Event) : encodes (a ++ b) = encodes a ++ encodes b.
Proof. apply omap_app. Qed.

Lemma iter_names workerID e st w out w' :
  exportWorker_iter workerID e st w = (out, w') ->
  exists evs, trace w' = trace w ++ evs /\
    match out with
    | Continue st' =>
        encodes evs = [batch_path workerID (batchNum st)] /\
        creates evs = [batch_path workerID (batchNum st)] /\
        batchNum st' = wrap_int (batchNum st + 1)
    | Panic =>
        encodes evs = [batch_path workerID (batchNum st)] /\
        creates evs = [batch_path workerID (batchNum st)]
    | _ =>
        encodes evs = [] /\
        (creates evs = [] \/ creates evs = [batch_path workerID (batchNum st)])
    end.
Proof.
  intros Hit. iter_inv Hit; cbn [trace]; eexists; (split; [reflexivity|]);
    try (split; [reflexivity|]); auto.
  change (?a :: ?b :: ?c :: ?d :: ?r) with ([a; b; c; d] ++ r).
  rewrite encodes_app, creates_app.
  destruct (env_save e); simpl; auto.
Qed.

Lemma loop_names workerID fuel :
  forall env st w out w',
  (- 2 ^ 63 <= batchNum st)%Z -> (batchNum st + Z.of_nat fuel < 2 ^ 63)%Z ->
  exportWorker_loop workerID env fuel st w = (out, w') ->
  exists evs k, trace w' = trace w ++ evs /\ k <= fuel /\
    encodes evs = map (fun i => batch_path workerID (batchNum st + Z.of_nat i)) (seq 0 k) /\
    (creates evs = encodes evs \/
     creates evs = encodes evs ++ [batch_path workerID (batchNum st + Z.of_nat k)]) /\
    (forall st', out = Continue st' -> batchNum st' = (batchNum st + Z.of_nat k)%Z).
Proof.
  induction fuel as [|fuel IH]; intros env st w out w' Hlo Hhi Hl.
  - injection Hl as <- <-. exists [], 0. rewrite app_nil_r, Z.add_0_r.
    repeat split; auto. intros st' E. injection E as <-. reflexivity.
  - simpl in Hl.
    destruct (exportWorker_iter workerID (env O) st w) as [o1 w1] eqn:Hit.
    destruct (iter_names _ _ _ _ _ _ Hit) as (evs1 & Ht1 & Hn1).
    destruct o1 as [st1| | |].
    + destruct Hn1 as (He1 & Hc1 & Hb1).
      rewrite wrap_int_id in Hb1 by lia.
      apply IH in Hl as (evs2 & k & Ht2 & Hk & He2 & Hc2 & Hb2); [|lia..].
      exists (evs1 ++ evs2), (S k).
      split; [rewrite Ht2, Ht1, app_assoc; reflexivity|].
      split; [lia|].
      assert (Hmap : encodes (evs1 ++ evs2) =
                map (fun i => batch_path workerID (batchNum st + Z.of_nat i)) (seq 0 (S k))).
      { rewrite encodes_app, He1, He2. simpl. rewrite Z.add_0_r. f_equal.
        rewrite <- seq_shift, map_map. apply map_ext. intros i.
        f_equal. rewrite Hb1. lia. }
      split; [exact Hmap|]. split.
      * rewrite creates_app, encodes_app, Hc1, He1.
        destruct Hc2 as [->| ->]; [left; reflexivity|right].
        replace (batchNum st + Z.of_nat (S k))%Z
          with (batchNum st1 + Z.of_nat k)%Z by lia.
        rewrite <- app_assoc. reflexivity.
      * intros st' E. rewrite (Hb2 st' E). lia.
    + injection Hl as <- <-. destruct Hn1 as (He1 & Hc1).
      exists evs1, 0. split; [exact Ht1|]. split; [lia|]. split; [exact He1|].
      rewrite He1, Z.add_0_r. split; [exact Hc1|]. discriminate.
    + injection Hl as <- <-. destruct Hn1 as (He1 & Hc1).
      exists evs1, 0. split; [exact Ht1|]. split; [lia|]. split; [exact He1|].
      rewrite He1, Z.add_0_r. split; [exact Hc1|]. discriminate.
    + injection Hl as <- <-. destruct Hn1 as (He1 & Hc1).
      exists evs1, 1. split; [exact Ht1|]. split; [lia|]. simpl. rewrite Z.add_0_r.
      split; [exact He1|]. rewrite He1, Hc1. split; [auto|]. discriminate.
Qed.

Lemma iter_with_save workerID e st w o :
  (exportWorker_iter workerID (with_save o e) st w).1 =
    (exportWorker_iter workerID e st w).1 /\
  files (exportWorker_iter workerID (with_save o e) st w).2 =
    files (exportWorker_iter workerID e st w).2.
Proof.
  unfold exportWorker_iter, with_save; cbn [env_find env_create env_encode env_save].
  destruct (env_find e _) as [| |results]; try (split; reflexivity).
  destruct (Nat.eqb _ _), (env_create e), (env_encode e); try (split; reflexivity).
  simpl negb; cbv iota.
  destruct (assert_ObjectID _); [|split; reflexivity].
  destruct o, (env_save e); split; reflexivity.
Qed.

(** C9. From the start of a lane ([batchNum] is 1) and for fewer than
    2^63 - 1 iterations, the files encoded so far are
    [exports/batch_1_worker_<lane>.json],
    [exports/batch_2_worker_<lane>.json], ... in this order, the files
    created are the same ones, plus the next in line when its encoding
    failed, and the counter stands one above the number of files
    encoded.  The outcome of [saveLastID] changes neither the outcome of
    an iteration, the next counter included, nor the export directory. *)
Theorem batch_files_numbered (workerID : Z) (env : nat -> IterEnv) (fuel : nat)
        (c : ObjectID) (w : World) (out : Outcome) (w' : World) :
  (Z.of_nat fuel < 2 ^ 63 - 1)%Z ->
  exportWorker_loop workerID env fuel (lane_start c) w = (out, w') ->
  exists evs k,
    trace w' = trace w ++ evs /\
    encodes evs =
      map (fun i : nat => "exports/batch_" +:+ pretty (Z.of_nat i) +:+
                          "_worker_" +:+ pretty workerID +:+ ".json") (seq 1 k) /\
    (creates evs = encodes evs \/
     creates evs = encodes evs ++
       ["exports/batch_" +:+ pretty (Z.of_nat (S k)) +:+
        "_worker_" +:+ pretty workerID +:+ ".json"]) /\
    (forall st', out = Continue st' -> batchNum st' = Z.of_nat (S k)) /\
    (forall e st w0 o,
       (exportWorker_iter workerID (with_save o e) st w0).1 =
         (exportWorker_iter workerID e st w0).1 /\
       files (exportWorker_iter workerID (with_save o e) st w0).2 =
         files (exportWorker_iter workerID e st w0).2).
Proof.
  intros Hfuel Hl.
  apply loop_names in Hl as (evs & k & Ht & Hk & He & Hc & Hb);
    cbn [batchNum lane_start] in *; [|lia..].
  exists evs, k. split; [exact Ht|].
  assert (Hmap : encodes evs =
            map (fun i : nat => "exports/batch_" +:+ pretty (Z.of_nat i) +:+
                                "_worker_" +:+ pretty workerID +:+ ".json") (seq 1 k)).
  { rewrite He, <- seq_shift, map_map. apply map_ext. intros i.
    replace (1 + Z.of_nat i)%Z with (Z.of_nat (S i)) by lia. reflexivity. }
  split; [exact Hmap|]. split; [|split].
  - destruct Hc as [Hc|Hc]; [left; exact Hc|right].
    rewrite Hc. f_equal.
    replace (1 + Z.of_nat k)%Z with (Z.of_nat (S k)) by lia. reflexivity.
  - intros st' E. rewrite (Hb st' E). lia.
  - intros e st w0 o. apply iter_with_save.
Qed.

(** C9 on three iterations whose first two checkpoint saves fail. *)
Lemma batch_files_numbered_witness :
  exists evs,
    trace (exportWorker_loop 0 flaky_env 5 (lane_start NilObjectID) (world0 None)).2 = evs /\
    encodes evs = ["exports/batch_1_worker_0.json"; "exports/batch_2_worker_0.json"].
Proof.
  destruct (batch_files_numbered 0 flaky_env 5 NilObjectID (world0 None) Break
              (exportWorker_loop 0 flaky_env 5 (lane_start NilObjectID) (world0 None)).2)
    as (evs & k & Ht & He & _).
  - reflexivity.
  - vm_compute. reflexivity.
  - exists evs. split; [exact Ht|]. 
    assert (Hk : k = 2).
    { apply (f_equal (@length string)) in He. rewrite length_map, length_seq in He.
      rewrite <- He. clear He. simpl in Ht. subst evs. vm_compute. reflexivity. }
    subst k. exact He.
Defined.

(** ** The goroutines: invariants and runs *)

Lemma sum_insert (f : WorkerPC -> nat) (l : list WorkerPC) (i : nat) (x y : WorkerPC) :
  l !! i = Some y ->
  sum_list (map f (<[i := x]> l)) + f y = sum_list (map f l) + f x.
Proof.
  revert i; induction l as [|z l IH]; intros [|i] Hi; simpl in *; try discriminate.
  - injection Hi as ->. lia.
  - specialize (IH i Hi). lia.
Qed.

Lemma sum_lookup_le (f : WorkerPC -> nat) (l : list WorkerPC) (i : nat) (y : WorkerPC) :
  l !! i = Some y -> f y <= sum_list (map f l).
Proof.
  revert i; induction l as [|z l IH]; intros [|i] Hi; simpl in *; try discriminate.
  - injection Hi as ->. lia.
  - specialize (IH i Hi). lia.
Qed.

Lemma sum_zero_Forall (f : WorkerPC -> nat) (l : list WorkerPC) :
  sum_list (map f l) = 0 -> Forall (fun pc => f pc = 0) l.
Proof.
  induction l as [|z l IH]; simpl; intros Hs; constructor; [lia|apply IH; lia].
Qed.

Lemma inv_init id w : inv (init id w).
Proof.
  unfold inv, init, workers; simpl.
  repeat split; try discriminate; try lia; auto;
    try (intros [?|?]; discriminate).
  all: repeat constructor; discriminate.
Qed.

Ltac inv_fin :=
  first [ tauto | discriminate | lia | congruence
        | intros [?|?]; discriminate
        | apply Forall_insert; [assumption|discriminate] ].

Lemma inv_step s s' : inv s -> step s s' -> inv s'.
Proof.
  intros (Hwg & Hcl & Hcp & Hex & Hre & Htok & Hcr & Htr) Hs.
  destruct Hs as [s id [Hrun Hne] Hm Hc Hlen
                 | s [Hrun Hne] Hm
                 | s [Hrun Hne] Hm Hz
                 | s [Hrun Hne] Hcw Hz
                 | s [Hrun Hne] Hcc
                 | s i pc id rest [Hrun Hne] Hi Hat Hbuf
                 | s i pc [Hrun Hne] Hi Hat Hbuf Hclosed
                 | s i st e out w' [Hrun Hne] Hi Hit
                 | s i [Hrun Hne] Hi ]; unfold inv; simpl.
  - (* feed *)
    rewrite Hm in Htok. rewrite length_app. simpl.
    repeat split; try inv_fin.
  - (* go *)
    rewrite Hm in Htok.
    repeat split; try inv_fin.
  - (* wait *)
    rewrite Hm in Htok.
    repeat split; try inv_fin.
    all: intros _; eexists; unfold emit; simpl; rewrite <- app_assoc; reflexivity.
  - (* closer wait *)
    repeat split; try inv_fin.
  - (* close *)
    repeat split; try inv_fin. 
  - (* recv *)
    pose proof (sum_insert live _ _ (WLoop (lane_start id)) _ Hi) as Hl.
    pose proof (sum_insert consumed _ _ (WLoop (lane_start id)) _ Hi) as Hcs.
    rewrite Hbuf in Htok. simpl in Htok.
    assert (live pc = 1) by (destruct pc; simpl in *; try discriminate; reflexivity).
    simpl in Hl, Hcs.
    repeat split; try inv_fin.
    all: try (destruct (main_pc s); lia).
  - (* range end: the channel is never closed under a live worker *)
    exfalso. pose proof (sum_lookup_le live _ _ _ Hi) as Hle.
    specialize (Hcl Hclosed).
    assert (live pc = 1) by (destruct pc; simpl in *; try discriminate; reflexivity).
    lia.
  - (* one iteration *)
    pose proof (sum_lookup_le live _ _ _ Hi) as Hle. simpl in Hle.
    destruct out as [st'| | |]; simpl.
    + pose proof (sum_insert live _ _ (WLoop st') _ Hi) as Hl.
      pose proof (sum_insert consumed _ _ (WLoop st') _ Hi) as Hcs. simpl in *.
      repeat split; try inv_fin.
    + pose proof (sum_insert live _ _ WDone _ Hi) as Hl.
      pose proof (sum_insert consumed _ _ WDone _ Hi) as Hcs. simpl in *.
      repeat split; try inv_fin.
    + pose proof (sum_insert live _ _ WReturned _ Hi) as Hl.
      pose proof (sum_insert consumed _ _ WReturned _ Hi) as Hcs. simpl in *.
      repeat split; try inv_fin.
      all: try (intros Hc'; specialize (Hcl Hc'); lia).
      all: try (intros Hc'; specialize (Hcp Hc'); lia).
    + pose proof (sum_insert live _ _ WPanicking _ Hi) as Hl.
      pose proof (sum_insert consumed _ _ WPanicking _ Hi) as Hcs. simpl in *.
      repeat split; try inv_fin.
      all: try (intros Hc'; specialize (Hcl Hc'); lia).
      all: try (intros Hc'; specialize (Hcp Hc'); lia).
  - (* crash *)
    repeat split; try inv_fin.
Qed.

Lemma inv_reachable s0 s : inv s0 -> reachable s0 s -> inv s.
Proof.
  intros H0 Hr. induction Hr as [|a b c Hab Hbc IH]; [exact H0|].
  apply IH. eapply inv_step; eassumption.
Qed.

Lemma iter_break_iff workerID e st w :
  (exportWorker_iter workerID e st w).1 = Break <->
  env_find e (lane_query (lastID st)) = Results [].
Proof.
  split; intros Hb.
  - destruct (iter_specP workerID e st w); simpl in Hb; try discriminate. assumption.
  - destruct (iter_specP workerID e st w); try congruence; try reflexivity.
    all: match goal with
         | Hr : ?r <> [] |- _ => assert (r = []) by congruence; contradiction
         end.
Qed.

Lemma done_lane_step s s' i :
  inv s -> lanes s !! i = Some WDone -> step s s' ->
  lanes s' !! i = Some WDone /\ main_pc s' <> MExit.
Proof.
  intros (Hwg & Hcl & Hcp & Hex & Hre & Htok & Hcr & Htr) Hd Hs.
  pose proof (sum_lookup_le live _ _ _ Hd) as Hlive.
  pose proof (sum_lookup_le consumed _ _ _ Hd) as Hcons. simpl in Hlive, Hcons.
  assert (Hbuf : chan_buf s = []).
  { destruct (chan_buf s); [reflexivity|]. simpl in Htok. destruct (main_pc s); lia. }
  destruct Hs as [s id [Hrun Hne] Hm Hc Hlen
                 | s [Hrun Hne] Hm
                 | s [Hrun Hne] Hm Hz
                 | s [Hrun Hne] Hcw Hz
                 | s [Hrun Hne] Hcc
                 | s j pc id rest [Hrun Hne] Hj Hat Hb
                 | s j pc [Hrun Hne] Hj Hat Hb Hclosed
                 | s j st e out w' [Hrun Hne] Hj Hit
                 | s j [Hrun Hne] Hj ]; simpl; try (split; [assumption|first [discriminate|assumption]]).
  - lia.
  - congruence.
  - specialize (Hcl Hclosed). lia.
  - assert (j <> i) by (intros ->; congruence).
    destruct out; simpl; (split; [rewrite list_lookup_insert_ne by assumption; assumption|assumption]).
Qed.

Lemma done_lane_reachable s s' i :
  inv s -> lanes s !! i = Some WDone -> reachable s s' ->
  lanes s' !! i = Some WDone /\ main_pc s' <> MExit.
Proof.
  intros Hinv Hd Hr. revert Hinv Hd.
  induction Hr as [s|a b c Hab Hbc IH]; intros Hinv Hd.
  - split; [exact Hd|]. intros Hm.
    destruct Hinv as (Hwg & _ & _ & Hex & _).
    pose proof (sum_lookup_le live _ _ _ Hd) as Hlive. simpl in Hlive.
    specialize (Hex Hm). lia.
  - destruct (done_lane_step _ _ _ Hinv Hd Hab) as [Hd' _].
    apply IH; [eapply inv_step; eassumption|exact Hd'].
Qed.

(** C4, what the code does where the completion report is expected: once
    a worker has left its inner loop on the empty page ([WDone]) it stays
    blocked at [range workChan] in every later state, the wait group
    never reaches zero, and main never gets past [wg.Wait()] to the
    completion report.  (The channel is closed only after the wait group
    is at zero, and [wg.Done()] runs only when the worker returns.) *)
Theorem done_lane_is_never_reported (id : ObjectID) (w : World) (s : Sys) (i : nat) :
  reachable (init id w) s ->
  lanes s !! i = Some WDone ->
  forall s', reachable s s' ->
    lanes s' !! i = Some WDone /\ main_pc s' <> MExit /\ wg s' <> 0.
Proof.
  intros Hr Hd s' Hr'.
  assert (Hinv : inv s) by (eapply inv_reachable; [apply inv_init|exact Hr]).
  destruct (done_lane_reachable _ _ _ Hinv Hd Hr') as [Hd' Hm].
  split; [exact Hd'|]. split; [exact Hm|].
  assert (Hinv' : inv s') by (eapply inv_reachable; eassumption).
  destruct Hinv' as (Hwg & _).
  pose proof (sum_lookup_le live _ _ _ Hd') as Hlive. simpl in Hlive. lia.
Qed.

Ltac step_side :=
  simpl; first [ done | split; simpl; done | unfold workers; simpl; lia ].

Lemma blocked_state_reachable :
  reachable (init NilObjectID (world0 None)) blocked_state.
Proof.
  unfold reachable, init, workers, world0.
  eapply rtc_l; [apply (step_feed _ NilObjectID); step_side|]. simpl.
  eapply rtc_l; [apply step_go; step_side|]. simpl.
  eapply rtc_l; [eapply (step_recv _ 0 WRange NilObjectID []); step_side|]. simpl.
  eapply rtc_l;
    [eapply (step_iter _ 0 (lane_start NilObjectID) (store_env [] SaveOk)
                       Break no_more_world); step_side|].
  simpl. apply rtc_refl.
Qed.

Lemma blocked_state_stuck (s' : Sys) : ~ step blocked_state s'.
Proof.
  intros Hs. inversion Hs; subst; simpl in *; try discriminate.
  all: match goal with
       | Hl : [WDone] !! ?i = Some _ |- _ => destruct i as [|[|?]]; simpl in Hl; try discriminate
       end.
Qed.

(** C4 on the run of an empty collection. *)
Lemma done_lane_is_never_reported_witness :
  lanes blocked_state !! 0 = Some WDone /\
  main_pc blocked_state <> MExit /\ wg blocked_state <> 0.
Proof.
  exact (done_lane_is_never_reported NilObjectID (world0 None) blocked_state 0
           blocked_state_reachable eq_refl blocked_state (rtc_refl _ _)).
Defined.

Lemma failed_state_reachable :
  reachable (init NilObjectID (world0 None)) failed_state.
Proof.
  unfold reachable, init, workers, world0.
  eapply rtc_l; [apply (step_feed _ NilObjectID); step_side|]. simpl.
  eapply rtc_l; [apply step_go; step_side|]. simpl.
  eapply rtc_l; [eapply (step_recv _ 0 WRange NilObjectID []); step_side|]. simpl.
  eapply rtc_l;
    [eapply (step_iter _ 0 (lane_start NilObjectID) failing_env Return
                       (mkWorld None ∅ [EvFind (lane_query NilObjectID);
                                        EvLog (LogFetchFailed 0)])); step_side|].
  simpl. eapply rtc_l; [apply step_wait; step_side|].
  simpl. apply rtc_refl.
Qed.

(** C5 as stated fails: with a [Find] that returns an error the only
    lane ends FAILED, and the run still ends with the completion message
    in the log and the exit status 0. *)
Lemma failed_lane_reported_as_success :
  reachable (init NilObjectID (world0 None)) failed_state /\
  lanes failed_state = [WReturned] /\
  EvLog (LogFetchFailed 0) ∈ trace (world failed_state) /\
  EvLog LogCompleted ∈ trace (world failed_state) /\
  exit_status failed_state = Some 0%Z.
Proof.
  split; [exact failed_state_reachable|]. split; [reflexivity|].
  split; [|split; [|reflexivity]]; apply list_elem_of_In; simpl; auto.
Qed.

Lemma inv_lanes_init id w : inv_lanes (init id w).
Proof. split; [reflexivity|discriminate]. Qed.

Lemma inv_lanes_step s s' : inv_lanes s -> step s s' -> inv_lanes s'.
Proof.
  intros [Hlen Hcr] Hs.
  destruct Hs as [s id [Hrun _] _ _ _
                 | s [Hrun _] _
                 | s [Hrun _] _ _
                 | s [Hrun _] _ _
                 | s [Hrun _] _
                 | s i pc id rest [Hrun _] _ _ _
                 | s i pc [Hrun _] _ _ _ _
                 | s i st e out w' [Hrun _] _ _
                 | s i [Hrun _] Hi ]; unfold inv_lanes; try destruct out; simpl;
    rewrite ?length_insert;
    (split; [exact Hlen|]); try (intros E; congruence).
  intros _. eapply list_elem_of_lookup_2, Hi.
Qed.

Lemma inv_lanes_reachable s0 s : inv_lanes s0 -> reachable s0 s -> inv_lanes s.
Proof.
  intros H0 Hr. induction Hr as [|a b c Hab Hbc IH]; [exact H0|].
  apply IH. eapply inv_lanes_step; eassumption.
Qed.

Lemma status_of_exited (l : list WorkerPC) :
  Forall exited l ->
  existsb panicking l = false <-> Forall (fun pc => pc = WReturned) l.
Proof.
  induction 1 as [|pc l [->| ->] _ IH]; simpl.
  - split; [constructor|reflexivity].
  - rewrite IH. split; [constructor; auto|]. intros Hl. inversion Hl; assumption.
  - split; [discriminate|]. intros Hl. inversion Hl; discriminate.
Qed.

(** Once the worker has returned on an error, main and the closer
    goroutine are the only ones that move, main is never held back, and
    the run is over after at most [steps_left] steps. *)
Lemma returned_lane_reports (n : nat) :
  forall s, steps_left s = n ->
    inv s -> crashed s = false -> lanes s = [WReturned] ->
    inevitably reported s.
Proof.
  induction n as [n IH] using lt_wf_ind. intros s Hn Hinv Hc Hl.
  pose proof Hinv as (Hwg & _ & _ & _ & _ & Htok & _ & Htr).
  rewrite Hl in Hwg, Htok. simpl in Hwg, Htok.
  destruct (main_pc s) as [c| | |] eqn:Hm; [lia| | |].
  - apply inev_step.
    { eexists. apply step_go; [split; [exact Hc|congruence]|exact Hm]. }
    intros s' Hs. pose proof (inv_step _ _ Hinv Hs) as Hinv'.
    apply (IH (steps_left s')); [|reflexivity|exact Hinv'| |];
      inversion Hs; subst; simpl in *; try congruence;
      unfold steps_left in *; simpl; rewrite ?Hm;
      try (destruct (closer_pc s); simpl; try discriminate; lia);
      try (rewrite Hl in *;
           match goal with
           | Hi : [WReturned] !! ?i = Some _ |- _ =>
               destruct i as [|[|?]]; simpl in Hi; try discriminate;
               injection Hi as <-; discriminate
           end).
  - apply inev_step.
    { eexists. apply step_wait; [split; [exact Hc|congruence]|exact Hm|exact Hwg]. }
    intros s' Hs. pose proof (inv_step _ _ Hinv Hs) as Hinv'.
    apply (IH (steps_left s')); [|reflexivity|exact Hinv'| |];
      inversion Hs; subst; simpl in *; try congruence;
      unfold steps_left in *; simpl; rewrite ?Hm;
      try (destruct (closer_pc s); simpl; try discriminate; lia);
      try (rewrite Hl in *;
           match goal with
           | Hi : [WReturned] !! ?i = Some _ |- _ =>
               destruct i as [|[|?]]; simpl in Hi; try discriminate;
               injection Hi as <-; discriminate
           end).
  - apply inev_now. unfold reported, exit_status. rewrite Hm, Hc, Hl. simpl.
    split; [reflexivity|]. split; [exact Hwg|].
    split; [repeat constructor|]. split; [reflexivity|]. apply Htr. reflexivity.
Qed.

Lemma returned_state_reachable :
  reachable (init NilObjectID (world0 None)) returned_state.
Proof.
  unfold reachable, init, workers, world0.
  eapply rtc_l; [apply (step_feed _ NilObjectID); step_side|]. simpl.
  eapply rtc_l; [apply step_go; step_side|]. simpl.
  eapply rtc_l; [eapply (step_recv _ 0 WRange NilObjectID []); step_side|]. simpl.
  eapply rtc_l;
    [eapply (step_iter _ 0 (lane_start NilObjectID) failing_env Return
                       (mkWorld None ∅ [EvFind (lane_query NilObjectID);
                                        EvLog (LogFetchFailed 0)])); step_side|].
  simpl. apply rtc_refl.
Qed.

(** C5, amended. Main reports only when the wait group is at zero, which
    is when every worker has returned on an error or is unwinding a
    panic; the report is the completion message followed by the total
    time, and the process then ends with status 0 exactly when no worker
    is unwinding a panic.  Once a worker has returned on an error, that
    report is what every run comes to, whichever goroutine moves: main
    is not held back, logs the completion message and the total time and
    returns, and the process ends with status 0. *)
Theorem report_after_all_lanes_exit (id : ObjectID) (w : World) (s : Sys) :
  reachable (init id w) s ->
  (main_pc s = MExit ->
     wg s = 0 /\
     Forall exited (lanes s) /\
     (exists t, trace (world s) = t ++ [EvLog LogCompleted; EvLog LogTotalTime]) /\
     (exit_status s = Some 0%Z <-> Forall (fun pc => pc = WReturned) (lanes s)) /\
     (exit_status s = Some 2%Z <-> WPanicking ∈ lanes s)) /\
  (forall i, lanes s !! i = Some WReturned -> inevitably reported s).
Proof.
  intros Hr.
  assert (Hinv : inv s) by (eapply inv_reachable; [apply inv_init|exact Hr]).
  assert (Hil : inv_lanes s)
    by (eapply inv_lanes_reachable; [apply inv_lanes_init|exact Hr]).
  split.
  - intros Hm. destruct Hinv as (Hwg & _ & _ & Hex & Hre & _ & Hcr & Htr).
    specialize (Hex Hm).
    assert (Hexit : Forall exited (lanes s)).
    { rewrite Hex in Hwg. symmetry in Hwg. apply sum_zero_Forall in Hwg.
      rewrite Forall_forall in Hwg, Hre. apply Forall_forall. intros pc Hpc.
      specialize (Hwg pc Hpc). specialize (Hre pc Hpc). unfold exited.
      destruct pc; simpl in Hwg; try discriminate; auto. congruence. }
    split; [exact Hex|]. split; [exact Hexit|]. split; [apply Htr, Hm|].
    assert (Hc : crashed s = false).
    { destruct (crashed s) eqn:Ec; [|reflexivity]. exfalso. apply Hcr; auto. }
    pose proof (status_of_exited _ Hexit) as Hst.
    unfold exit_status. rewrite Hc, Hm.
    destruct (existsb panicking (lanes s)) eqn:Ep; (split; split).
    + discriminate.
    + intros Hall. apply Hst in Hall. discriminate.
    + intros _. apply existsb_exists in Ep as (pc & Hin & Hp).
      destruct pc; try discriminate. apply list_elem_of_In, Hin.
    + reflexivity.
    + intros _. apply Hst. reflexivity.
    + reflexivity.
    + discriminate.
    + intros Hin. exfalso.
      assert (existsb panicking (lanes s) = true); [|congruence].
      apply existsb_exists. exists WPanicking.
      split; [apply list_elem_of_In, Hin|reflexivity].
  - intros i Hi. destruct Hil as [Hlen Hcrash].
    assert (Hl : lanes s = [WReturned]).
    { unfold workers in Hlen. destruct (lanes s) as [|pc [|? ?]]; try discriminate.
      destruct i as [|i]; simpl in Hi; [congruence|destruct i; discriminate]. }
    apply (returned_lane_reports (steps_left s)); auto.
    destruct (crashed s) eqn:Ec; [|reflexivity].
    specialize (Hcrash eq_refl). rewrite Hl in Hcrash.
    apply list_elem_of_singleton in Hcrash. discriminate.
Qed.

(** C5, amended, on the run whose [Find] fails, from the return of the
    worker on. *)
Lemma report_after_all_lanes_exit_witness : inevitably reported returned_state.
Proof.
  exact (proj2 (report_after_all_lanes_exit NilObjectID (world0 None) returned_state
                  returned_state_reachable) 0 eq_refl).
Defined.

(** ** Progress of a lane on a fixed collection *)

Lemma value_leb_refl (a : Value) : value_leb a a = true.
Proof.
  destruct (value_leb a a) eqn:E; [reflexivity|].
  apply value_leb_total in E as E'. congruence.
Qed.

Lemma value_ltb_trans (a b c : Value) :
  value_ltb a b = true -> value_ltb b c = true -> value_ltb a c = true.
Proof.
  unfold value_ltb. rewrite !negb_true_iff. intros Hab Hbc.
  destruct (value_leb c a) eqn:E; [|reflexivity].
  apply value_leb_total in Hab.
  rewrite (value_leb_trans c a b E Hab) in Hbc. discriminate.
Qed.

Lemma length_filter_lt (P Q : Doc -> bool) (l : list Doc) (x : Doc) :
  (forall d, P d = true -> Q d = true) ->
  x ∈ l -> Q x = true -> P x = false ->
  length (filter (fun d => P d) l) < length (filter (fun d => Q d) l).
Proof.
  intros HPQ Hx HQ HP.
  assert (Hle : forall l', length (filter (fun d => P d) l') <=
                           length (filter (fun d => Q d) l')).
  { induction l' as [|y l' IH]; [reflexivity|].
    rewrite !filter_cons. destruct (P y) eqn:Ey.
    - rewrite (HPQ y Ey). simpl. lia.
    - simpl. destruct (Q y); simpl; lia. }
  induction l as [|y l IH]; [inversion Hx|].
  rewrite !filter_cons.
  apply elem_of_cons in Hx as [<-|Hx].
  - rewrite HQ, HP. simpl. specialize (Hle l). lia.
  - specialize (IH Hx). destruct (P y) eqn:Ey.
    + rewrite (HPQ y Ey). simpl. lia.
    + simpl. destruct (Q y); simpl; lia.
Qed.

Lemma filter_all (l : list Doc) : filter (fun _ : Doc => true) l = l.
Proof.
  induction l as [|d l IH]; [reflexivity|].
  rewrite filter_cons_True by exact I. f_equal. exact IH.
Qed.

Lemma matches_gt_self (d : Doc) (k : ObjectID) :
  d !! "_id" = Some (VObjectID k) -> matches (FilterGt "_id" k) d = false.
Proof.
  intros Hd. simpl. rewrite Hd. unfold value_ltb.
  rewrite value_leb_refl. reflexivity.
Qed.

Lemma matches_gt_trans (c c' : ObjectID) (d : Doc) :
  value_ltb (VObjectID c) (VObjectID c') = true ->
  matches (FilterGt "_id" c') d = true -> matches (FilterGt "_id" c) d = true.
Proof.
  intros Hc. simpl. destruct (d !! "_id") as [[| |k|]|]; try discriminate.
  intros Hk. eapply value_ltb_trans; eassumption.
Qed.

Lemma iter_progress workerID store o st w :
  (forall d k, d ∈ store -> d !! "_id" = Some (VObjectID k) -> IsZero k = false) ->
  match (exportWorker_iter workerID (store_env store o) st w).1 with
  | Continue st' => remaining store (lastID st') < remaining store (lastID st)
  | Break | Panic => True
  | Return => False
  end.
Proof.
  intros Hnz.
  destruct (iter_specP workerID (store_env store o) st w);
    cbn [fst env_find env_create env_encode store_env] in *;
    try discriminate; try exact I.
  cbn [lastID].
  match goal with
  | Hf : Results _ = Results ?r, Ha : assert_ObjectID _ = Some _ |- _ =>
      injection Hf as Hf; apply assert_ObjectID_Some in Ha as Hl
  end.
  subst results. unfold last_id_field in Hl.
  destruct (last (mongoFind store (lane_query (lastID st)))) as [dl|] eqn:El;
    [|discriminate].
  apply last_Some_elem_of, elem_of_mongoFind_lane in El as [Hin Hm].
  pose proof (Hnz dl id Hin Hl) as Hid.
  unfold remaining. rewrite Hid. unfold lane_filter in Hm.
  destruct (IsZero (lastID st)) eqn:Hz; simpl negb in Hm; cbv iota in Hm;
    apply -> Nat.succ_lt_mono.
  - rewrite <- (filter_all store) at 2.
    apply (length_filter_lt _ (fun _ => true) store dl); auto.
    apply matches_gt_self, Hl.
  - apply (length_filter_lt _ (fun d => matches (FilterGt "_id" (lastID st)) d) store dl);
      auto; [|apply matches_gt_self, Hl].
    intros d. apply matches_gt_trans.
    simpl in Hm. rewrite Hl in Hm. exact Hm.
Qed.

Lemma loop_ends workerID store (o : nat -> SaveOutcome) :
  (forall d k, d ∈ store -> d !! "_id" = Some (VObjectID k) -> IsZero k = false) ->
  forall fuel st w,
    remaining store (lastID st) <= fuel ->
    let out := (exportWorker_loop workerID (fun i => store_env store (o i)) fuel st w).1 in
    out = Break \/ out = Panic.
Proof.
  intros Hnz fuel. revert o. induction fuel as [|fuel IH]; intros o st w Hm.
  - unfold remaining in Hm. destruct (IsZero _); lia.
  - cbn [exportWorker_loop].
    pose proof (iter_progress workerID store (o O) st w Hnz) as Hp.
    destruct (exportWorker_iter workerID (store_env store (o O)) st w) as [[st'| | |] w1];
      cbn [fst] in *; auto; [|contradiction].
    apply (IH (fun i => o (S i))). lia.
Qed.

Lemma remaining_le store c : remaining store c <= S (length store).
Proof.
  unfold remaining. destruct (IsZero c); [lia|].
  apply le_n_S, length_filter.
Qed.

(** X1. On a collection that does not change, none of whose records has
    the zero ObjectID as its [_id], and without I/O errors, the inner
    loop of a lane started at any cursor ends within one iteration more
    than the collection has records: on the empty page, or on the panic
    of C10.  Every iteration that goes on has fewer records left beyond
    its cursor. *)
Theorem lane_ends_on_fixed_collection (workerID : Z) (store : list Doc)
        (o : nat -> SaveOutcome) (c : ObjectID) (w : World) :
  (forall d k, d ∈ store -> d !! "_id" = Some (VObjectID k) -> IsZero k = false) ->
  (exportWorker_loop workerID (fun i => store_env store (o i))
                     (S (length store)) (lane_start c) w).1 = Break \/
  (exportWorker_loop workerID (fun i => store_env store (o i))
                     (S (length store)) (lane_start c) w).1 = Panic.
Proof.
  intros Hnz. apply (loop_ends workerID store o Hnz). apply remaining_le.
Qed.

(** X1 on the collection with keys 5, 2, 9. *)
Lemma lane_ends_on_fixed_collection_witness :
  (exportWorker_loop 0 (fun i => store_env sample_store SaveOk) 4
                     (lane_start NilObjectID) (world0 None)).1 = Break.
Proof.
  destruct (lane_ends_on_fixed_collection 0 sample_store (fun _ => SaveOk)
              NilObjectID (world0 None)) as [Hb|Hp].
  - intros d k Hd Hk. unfold sample_store in Hd.
    repeat (apply elem_of_cons in Hd as [->|Hd];
            [unfold doc_of in Hk; rewrite lookup_singleton_eq in Hk;
             injection Hk as <-; reflexivity|]).
    inversion Hd.
  - exact Hb.
  - exfalso. vm_compute in Hp. discriminate Hp.
Defined.

(** ** A key that is the zero ObjectID *)

Lemma mongoFind_zero_store (c : ObjectID) :
  IsZero c = true -> mongoFind zero_store (lane_query c) = zero_store.
Proof.
  intros Hz. rewrite mongoFind_lane. unfold lane_filter. rewrite Hz.
  simpl negb. cbv iota. unfold zero_store.
  rewrite filter_cons_True by exact I. rewrite filter_nil. simpl sort_by.
  apply take_ge. simpl. unfold batchSize. lia.
Qed.

(** X2. On a collection whose only record has the zero ObjectID as its
    [_id], a lane that starts from the nil cursor never sees the empty
    page: the key it takes from the page is again the nil cursor, the
    next filter is again empty, and every iteration encodes one more
    batch file. *)
Theorem zero_key_is_fetched_forever (workerID : Z) (o : nat -> SaveOutcome)
        (fuel : nat) (st : LaneState) (w : World) :
  IsZero (lastID st) = true ->
  exists st' w',
    exportWorker_loop workerID (fun i => store_env zero_store (o i)) fuel st w =
      (Continue st', w') /\
    IsZero (lastID st') = true /\
    length (encodes (trace w')) = length (encodes (trace w)) + fuel.
Proof.
  revert o st w. induction fuel as [|fuel IH]; intros o st w Hz.
  - exists st, w. split; [reflexivity|]. split; [exact Hz|]. lia.
  - cbn [exportWorker_loop].
    destruct (iter_specP workerID (store_env zero_store (o O)) st w);
      cbn [env_find env_create env_encode store_env] in *; try discriminate.
    + match goal with Hf : Results _ = Results [] |- _ =>
        rewrite (mongoFind_zero_store _ Hz) in Hf; discriminate Hf end.
    + match goal with
      | Hf : Results _ = Results ?r, Ha : assert_ObjectID _ = None |- _ =>
          rewrite (mongoFind_zero_store _ Hz) in Hf; injection Hf as <-;
          discriminate Ha
      end.
    + match goal with
      | Hf : Results _ = Results ?r, Ha : assert_ObjectID _ = Some _ |- _ =>
          rewrite (mongoFind_zero_store _ Hz) in Hf; injection Hf as <-;
          simpl in Ha; injection Ha as <-
      end.
      match goal with
      | |- context [exportWorker_loop _ _ _ ?st1 ?w1] =>
          destruct (IH (fun i => o (S i)) st1 w1 eq_refl) as (st' & w' & Hl & Hz' & Hn)
      end.
      exists st', w'. split; [exact Hl|]. split; [exact Hz'|].
      rewrite Hn. cbn [trace].
      rewrite encodes_app. change (?a :: ?b :: ?c :: ?d :: ?r) with ([a; b; c; d] ++ r).
      rewrite encodes_app, length_app, length_app.
      destruct (env_save _); simpl; lia.
Qed.

(** X2 for three iterations. *)
Lemma zero_key_is_fetched_forever_witness :
  exists st' w',
    exportWorker_loop 0 (fun i => store_env zero_store SaveOk) 3
                      (lane_start NilObjectID) (world0 None) = (Continue st', w') /\
    length (encodes (trace w')) = 3.
Proof.
  destruct (zero_key_is_fetched_forever 0 (fun _ => SaveOk) 3
              (lane_start NilObjectID) (world0 None) eq_refl)
    as (st' & w' & Hl & _ & Hn).
  exists st', w'. split; [exact Hl|exact Hn].
Defined.

(** ** A checkpoint write that fails half-way *)

Lemma substring_take (n : nat) (s : string) :
  list_ascii_of_string (String.substring 0 n s) = take n (list_ascii_of_string s).
Proof.
  revert s; induction n as [|n IH]; intros [|c s]; simpl; try reflexivity.
  rewrite IH. reflexivity.
Qed.

Lemma length_list_ascii (s : string) :
  length (list_ascii_of_string s) = String.length s.
Proof. induction s as [|c s IH]; simpl; congruence. Qed.

Section PartialWrite.
Context `{UnicodeTrim}.

(** X3. When [os.Create] of the checkpoint file succeeds and
    [WriteString] fails after fewer than 24 bytes, the file reads as the
    nil cursor whatever it held before. *)
Theorem failed_write_loses_checkpoint (c : ObjectID) (n : nat) (file : option string) :
  n < 24 ->
  loadLastID (saveLastID (SaveWriteFails n) c file) = NilObjectID.
Proof.
  intros Hn. simpl.
  rewrite TrimSpace_plain
    by (rewrite substring_take; apply Forall_take, plain_Encode).
  unfold ObjectIDFromHex.
  assert (Hlen : String.length (String.substring 0 n (Hex c)) <> 24).
  { rewrite <- length_list_ascii, substring_take, length_take. lia. }
  apply Nat.eqb_neq in Hlen. rewrite Hlen. reflexivity.
Qed.

End PartialWrite.

(** X3 on a file that held the key 9. *)
Lemma failed_write_loses_checkpoint_witness :
  @loadLastID ascii_only
    (saveLastID (SaveWriteFails 3) sample_oid (Some (Hex (oid_of x09)))) = NilObjectID.
Proof.
  apply (@failed_write_loses_checkpoint ascii_only sample_oid 3). lia.
Defined.

(** * Further properties of the code

    ** Batch file names *)

Lemma chars_append (a b : string) :
  list_ascii_of_string (a +:+ b) = list_ascii_of_string a ++ list_ascii_of_string b.
Proof. induction a as [|c a IH]; simpl; [reflexivity|]. rewrite IH. reflexivity. Qed.

Lemma chars_inj (a b : string) :
  list_ascii_of_string a = list_ascii_of_string b -> a = b.
Proof.
  intros E. rewrite <- (string_of_list_ascii_of_string a),
    <- (string_of_list_ascii_of_string b), E. reflexivity.
Qed.

Lemma numeral_pretty_N_go (x : N) (s : string) :
  Forall (fun c => numeral c = true) (list_ascii_of_string s) ->
  Forall (fun c => numeral c = true) (list_ascii_of_string (pretty_N_go x s)).
Proof.
  revert s. induction (N.lt_wf_0 x) as [x _ IH]; intros s Hs.
  assert (x = 0 \/ 0 < x)%N as [->|Hx] by lia.
  - rewrite pretty_N_go_0. exact Hs.
  - rewrite pretty_N_go_step by exact Hx. apply IH.
    + apply N.div_lt; lia.
    + simpl. constructor; [|exact Hs].
      unfold pretty_N_char. repeat case_match; reflexivity.
Qed.

Lemma numeral_pretty_Z (z : Z) :
  Forall (fun c => numeral c = true) (list_ascii_of_string (pretty z)).
Proof.
  assert (HN : forall p : positive,
             Forall (fun c => numeral c = true)
                    (list_ascii_of_string (pretty p))).
  { intros p. unfold pretty, pretty_positive, pretty, pretty_N.
    case_decide; [repeat constructor|].
    apply numeral_pretty_N_go. constructor. }
  destruct z as [|p|p]; unfold pretty, pretty_Z.
  - repeat constructor.
  - apply HN.
  - rewrite chars_append. simpl. constructor; [reflexivity|apply HN].
Qed.

Lemma split_at_underscore (l1 l2 r1 r2 : list ascii) :
  Forall (fun c => numeral c = true) l1 ->
  Forall (fun c => numeral c = true) l2 ->
  l1 ++ "_"%char :: r1 = l2 ++ "_"%char :: r2 -> l1 = l2 /\ r1 = r2.
Proof.
  revert l2. induction l1 as [|a l1 IH]; intros [|b l2] H1 H2 E; simpl in E.
  - injection E as ->. auto.
  - injection E as <- _. inversion H2; subst. discriminate.
  - injection E as -> _. inversion H1; subst. discriminate.
  - injection E as -> E. inversion H1; inversion H2; subst.
    destruct (IH l2) as [-> ->]; auto.
Qed.

Lemma batch_path_chars (workerID n : Z) :
  list_ascii_of_string (batch_path workerID n) =
  list_ascii_of_string "exports/batch_" ++ list_ascii_of_string (pretty n) ++
  list_ascii_of_string "_worker_" ++ list_ascii_of_string (pretty workerID) ++
  list_ascii_of_string ".json".
Proof.
  unfold batch_path, filepath_Join, batch_name, exportDir.
  rewrite !chars_append. simpl. reflexivity.
Qed.

Lemma batch_path_eq (w1 n1 w2 n2 : Z) :
  batch_path w1 n1 = batch_path w2 n2 -> w1 = w2 /\ n1 = n2.
Proof.
  intros E. apply (f_equal list_ascii_of_string) in E.
  rewrite !batch_path_chars in E. apply app_inv_head in E.
  apply (split_at_underscore _ _
           (list_ascii_of_string "worker_" ++ list_ascii_of_string (pretty w1) ++
            list_ascii_of_string ".json")
           (list_ascii_of_string "worker_" ++ list_ascii_of_string (pretty w2) ++
            list_ascii_of_string ".json")) in E as [En E];
    try apply numeral_pretty_Z.
  apply app_inv_head, app_inv_tail in E.
  apply chars_inj, (inj pretty) in En. apply chars_inj, (inj pretty) in E.
  auto.
Qed.

(** X4. Two batch files have the same path only when they belong to the
    same worker and carry the same batch number: the path
    [exports/batch_<n>_worker_<w>.json] determines [n] and [w], also
    where [%d] prints a sign. *)
Theorem batch_path_inj (w1 n1 w2 n2 : Z) :
  batch_path w1 n1 = batch_path w2 n2 <-> w1 = w2 /\ n1 = n2.
Proof.
  split; [apply batch_path_eq|]. intros [-> ->]. reflexivity.
Qed.

(** ** The export directory at the end of a run *)

Lemma pages_app (a b : list Event) : pages (a ++ b) = pages a ++ pages b.
Proof. apply omap_app. Qed.

Lemma pages_warning (o : SaveOutcome) : pages (save_warning o) = [].
Proof. destruct o; reflexivity. Qed.

Lemma batch_path_ne (workerID b : Z) (k : nat) :
  batch_path workerID b <> batch_path workerID (b + 1 + Z.of_nat k).
Proof. intros E. apply batch_path_eq in E as [_ E]. lia. Qed.

Lemma loop_files workerID fuel :
  forall env st w out w',
  (- 2 ^ 63 <= batchNum st)%Z -> (batchNum st + Z.of_nat fuel < 2 ^ 63)%Z ->
  exportWorker_loop workerID env fuel st w = (out, w') ->
  exists evs, trace w' = trace w ++ evs /\
    (forall (i : nat) q r, pages evs !! i = Some (q, r) ->
       q = batch_path workerID (batchNum st + Z.of_nat i) /\
       files w' !! q = Some (Complete r)) /\
    (forall q, (forall k : nat, k < fuel ->
                  q <> batch_path workerID (batchNum st + Z.of_nat k)) ->
       files w' !! q = files w !! q).
Proof.
  induction fuel as [|fuel IH]; intros env st w out w' Hlo Hhi Hl.
  - injection Hl as <- <-. exists []. rewrite app_nil_r.
    split; [reflexivity|]. split; [intros i q r Hi; destruct i; discriminate|].
    reflexivity.
  - cbn [exportWorker_loop] in Hl.
    assert (Hself : forall q,
              (forall k : nat, k < S fuel ->
                 q <> batch_path workerID (batchNum st + Z.of_nat k)) ->
              filepath_Join exportDir (batch_name (batchNum st) workerID) <> q).
    { intros q Hq E. apply (Hq 0%nat); [lia|]. rewrite Z.add_0_r. symmetry. exact E. }
    destruct (iter_specP workerID (env O) st w).
    1-4: injection Hl as <- <-; eexists; (split; [reflexivity|]);
         split; [intros [|i] q r Hi; discriminate|reflexivity].
    + injection Hl as <- <-. eexists; (split; [reflexivity|]).
      split; [intros [|i] q r Hi; discriminate|].
      intros q Hq. cbn [files]. apply lookup_insert_ne, Hself, Hq.
    + injection Hl as <- <-. eexists; (split; [reflexivity|]). split.
      * intros [|[|i]] q r Hi; try discriminate. injection Hi as <- <-.
        rewrite Z.add_0_r. split; [reflexivity|]. cbn [files].
        apply lookup_insert_eq.
      * intros q Hq. cbn [files].
        rewrite !lookup_insert_ne by (apply Hself, Hq). reflexivity.
    + apply IH in Hl as (evs2 & Ht2 & Hp2 & Hfr2);
        cbn [batchNum] in *; rewrite ?wrap_int_id in * by lia; try lia.
      cbn [trace files] in *.
      eexists. split; [rewrite Ht2, <- app_assoc; reflexivity|].
      match goal with
      | |- context [EvEncode ?pth ?rs] =>
          assert (Hpg : forall tl, pages ([EvFind (lane_query (lastID st)); EvCreate pth;
                            EvEncode pth rs; EvSave id]
                           ++ save_warning (env_save (env O)) ++ tl)
                        = (pth, rs) :: pages tl)
            by (intros tl; rewrite !pages_app, pages_warning; reflexivity)
      end.
      split.
      * intros i q r Hi. rewrite pages_app, Hpg in Hi.
        destruct i as [|i]; simpl in Hi.
        -- injection Hi as <- <-. rewrite Z.add_0_r. split; [reflexivity|].
           rewrite Hfr2.
           ++ apply lookup_insert_eq.
           ++ intros k _. apply batch_path_ne.
        -- destruct (Hp2 i q r Hi) as [-> Hc2]. split; [f_equal; lia|exact Hc2].
      * intros q Hq. rewrite Hfr2.
        -- rewrite !lookup_insert_ne by (apply Hself, Hq). reflexivity.
        -- intros k Hk. replace (batchNum st + 1 + Z.of_nat k)%Z
             with (batchNum st + Z.of_nat (S k))%Z by lia.
           apply Hq. lia.
Qed.

(** X5. After any run of the inner loop that started with [batchNum = 1]
    and made fewer than 2^63 - 1 iterations, whatever the outside did:
    the page encoded [i]-th went to [batch_<i>_worker_<w>.json], that
    file still holds exactly this page, complete, when the run is over,
    and every path other than the worker's [batch_1] .. [batch_<fuel>]
    is as it was before the run. *)
Theorem batch_files_hold_pages (workerID : Z) (env : nat -> IterEnv) (fuel : nat)
        (c : ObjectID) (w : World) (out : Outcome) (w' : World) :
  (Z.of_nat fuel < 2 ^ 63 - 1)%Z ->
  exportWorker_loop workerID env fuel (lane_start c) w = (out, w') ->
  exists evs, trace w' = trace w ++ evs /\
    (forall (i : nat) q r, pages evs !! i = Some (q, r) ->
       q = batch_path workerID (Z.of_nat (S i)) /\
       files w' !! q = Some (Complete r)) /\
    (forall q, (forall k : nat, 1 <= k <= fuel ->
                  q <> batch_path workerID (Z.of_nat k)) ->
       files w' !! q = files w !! q).
Proof.
  intros Hfuel Hl.
  apply loop_files in Hl as (evs & Ht & Hp & Hfr); cbn [batchNum lane_start] in *;
    [|lia..].
  exists evs. split; [exact Ht|]. split.
  - intros i q r Hi. destruct (Hp i q r Hi) as [-> Hc].
    replace (1 + Z.of_nat i)%Z with (Z.of_nat (S i)) in * by lia. auto.
  - intros q Hn. apply Hfr. intros k Hk.
    replace (1 + Z.of_nat k)%Z with (Z.of_nat (S k)) by lia. apply Hn. lia.
Qed.

(** X5 on the export of the collection with keys 5, 2, 9. *)
Lemma batch_files_hold_pages_witness :
  let r := exportWorker_loop 0 (fun _ => store_env sample_store SaveOk) 4
             (lane_start NilObjectID) (world0 None) in
  exists evs, trace r.2 = [] ++ evs /\
    (forall (i : nat) q pg, pages evs !! i = Some (q, pg) ->
       q = batch_path 0 (Z.of_nat (S i)) /\ files r.2 !! q = Some (Complete pg)) /\
    (forall q, (forall k : nat, 1 <= k <= 4 -> q <> batch_path 0 (Z.of_nat k)) ->
       files r.2 !! q = None).
Proof.
  intros r.
  apply (batch_files_hold_pages 0 (fun _ => store_env sample_store SaveOk) 4
           NilObjectID (world0 None) r.1 r.2); [lia|apply surjective_pairing].
Defined.

(** ** Restarting an interrupted export *)

Lemma page_below_last (results : list Doc) (c : ObjectID) (d : Doc) :
  ascending "_id" results ->
  last_id_field results = Some (VObjectID c) ->
  d ∈ results -> value_leb (field_of "_id" d) (VObjectID c) = true.
Proof.
  intros Hasc Hl Hd. unfold last_id_field in Hl.
  destruct (last results) as [dl|] eqn:El; [|discriminate].
  replace (VObjectID c) with (field_of "_id" dl)
    by (unfold field_of; rewrite Hl; reflexivity).
  eapply ascending_last_max; eassumption.
Qed.

Lemma page_above_cursor (store : list Doc) (c : ObjectID) (d : Doc) :
  IsZero c = false ->
  d ∈ mongoFind store (lane_query c) ->
  value_leb (field_of "_id" d) (VObjectID c) = false.
Proof.
  intros Hz [_ Hm]%elem_of_mongoFind_lane.
  unfold lane_filter in Hm. rewrite Hz in Hm. simpl in Hm. unfold field_of.
  destruct (d !! "_id") as [[| |k|]|]; try discriminate.
  unfold value_ltb in Hm. apply negb_true_iff in Hm. exact Hm.
Qed.

(** X6. A restarted export writes over the first batch file of the
    export before it.  When a process has exported its first page and
    saved the checkpoint, and the next process loads that checkpoint and
    exports its own first page, then [batch_1_worker_<w>.json] held the
    first page after the first process and holds the second one after
    the second ([batchNum] starts at 1 again); both pages have records.
    When the key the first process saved is not the zero ObjectID, no
    record of the first page is in the second, so the file has lost the
    records of the first page.  (With the zero ObjectID as that key the
    second process fetches from the start again, as in X2.) *)
Theorem restart_replaces_first_batch `{UnicodeTrim} (workerID : Z)
        (e1 e2 : IterEnv) (c0 : ObjectID) (w0 : World) (store1 store2 : list Doc)
        (st1 st2 : LaneState) (w1 w2 : World) :
  env_find e1 (lane_query c0) = Results (mongoFind store1 (lane_query c0)) ->
  env_save e1 = SaveOk ->
  exportWorker_iter workerID e1 (lane_start c0) w0 = (Continue st1, w1) ->
  env_find e2 (lane_query (lastID st1)) =
    Results (mongoFind store2 (lane_query (lastID st1))) ->
  exportWorker_iter workerID e2 (lane_start (loadLastID (ckpt w1))) w1 =
    (Continue st2, w2) ->
  files w1 !! batch_path workerID 1 = Some (Complete (mongoFind store1 (lane_query c0))) /\
  files w2 !! batch_path workerID 1 =
    Some (Complete (mongoFind store2 (lane_query (lastID st1)))) /\
  mongoFind store1 (lane_query c0) <> [] /\
  mongoFind store2 (lane_query (lastID st1)) <> [] /\
  (IsZero (lastID st1) = false ->
   forall d, d ∈ mongoFind store1 (lane_query c0) ->
             d ∉ mongoFind store2 (lane_query (lastID st1))).
Proof.
  intros Hf1 Hs1 Hit1 Hf2 Hit2.
  assert (Hload : loadLastID (ckpt w1) = lastID st1 /\
                  last_id_field (mongoFind store1 (lane_query c0)) =
                    Some (VObjectID (lastID st1)) /\
                  files w1 !! batch_path workerID 1 =
                    Some (Complete (mongoFind store1 (lane_query c0))) /\
                  mongoFind store1 (lane_query c0) <> []).
  { iter_inv Hit1. cbn [lastID lane_start ckpt files batchNum] in *.
    match goal with
    | Hr : env_find e1 _ = Results ?r, Ha : assert_ObjectID _ = Some _ |- _ =>
        assert (r = mongoFind store1 (lane_query c0)) as -> by congruence;
        apply assert_ObjectID_Some in Ha
    end.
    rewrite Hs1. simpl saveLastID.
    split; [apply loadLastID_Hex|]. split; [assumption|].
    split; [apply lookup_insert_eq|assumption]. }
  destruct Hload as (Hload & Hlast & Hfile1 & Hne1).
  rewrite Hload in Hit2. iter_inv Hit2. cbn [lastID lane_start files batchNum] in *.
  match goal with
  | Hr : env_find e2 _ = Results ?r |- _ =>
      assert (r = mongoFind store2 (lane_query (lastID st1))) as -> by congruence
  end.
  split; [exact Hfile1|]. split; [apply lookup_insert_eq|].
  split; [exact Hne1|]. split; [assumption|].
  intros Hz d Hd1 Hd2.
  pose proof (page_below_last _ _ _ (mongoFind_lane_ascending store1 c0) Hlast Hd1) as Hle.
  pose proof (page_above_cursor _ _ _ Hz Hd2) as Hgt. congruence.
Qed.

(** X6 on a collection with keys 1, 2 that has a third record, 3, when
    the export is started again: the records 1 and 2 are gone from the
    first batch file. *)
Lemma restart_replaces_first_batch_witness :
  let r1 := exportWorker_iter 0 (store_env store_before SaveOk)
              (lane_start NilObjectID) (world0 None) in
  let r2 := exportWorker_iter 0 (store_env store_after SaveOk)
              (lane_start (@loadLastID ascii_only (ckpt r1.2))) r1.2 in
  files r1.2 !! batch_path 0 1 = Some (Complete [doc_of x01; doc_of x02]) /\
  files r2.2 !! batch_path 0 1 = Some (Complete [doc_of x03]) /\
  (doc_of x01 ∉ mongoFind store_after (lane_query (oid_of x02))) /\
  (doc_of x02 ∉ mongoFind store_after (lane_query (oid_of x02))).
Proof.
  intros r1 r2.
  destruct (@restart_replaces_first_batch ascii_only 0
              (store_env store_before SaveOk) (store_env store_after SaveOk)
              NilObjectID (world0 None) store_before store_after
              (mkLane (oid_of x02) 2) (mkLane (oid_of x03) 2) r1.2 r2.2)
    as (H1 & H2 & _ & _ & Hnew);
    [reflexivity|reflexivity|vm_compute; reflexivity|reflexivity
    |vm_compute; reflexivity|].
  split; [exact H1|]. split; [exact H2|].
  split; apply (Hnew eq_refl); [left|right; left].
Defined.

Lemma finds_app (a b : list Event) : finds (a ++ b) = finds a ++ finds b.
Proof. apply omap_app. Qed.

Lemma finds_warning (o : SaveOutcome) : finds (save_warning o) = [].
Proof. destruct o; reflexivity. Qed.

(** What one iteration adds to the trace, read through [finds], [pages]
    and [saves], does not depend on the batch counter or on the world. *)
Lemma iter_counter_irrelevant workerID e c b1 b2 w1 w2 :
  exists evs1 evs2,
    trace (exportWorker_iter workerID e (mkLane c b1) w1).2 = trace w1 ++ evs1 /\
    trace (exportWorker_iter workerID e (mkLane c b2) w2).2 = trace w2 ++ evs2 /\
    finds evs1 = finds evs2 /\
    map snd (pages evs1) = map snd (pages evs2) /\
    saves evs1 = saves evs2 /\
    same_exit (exportWorker_iter workerID e (mkLane c b1) w1).1
              (exportWorker_iter workerID e (mkLane c b2) w2).1.
Proof.
  destruct (iter_specP workerID e (mkLane c b1) w1);
    destruct (iter_specP workerID e (mkLane c b2) w2);
    cbn [lastID] in *; try congruence;
    try (match goal with
         | H1 : env_find e _ = Results ?r1, H2 : env_find e _ = Results ?r2 |- _ =>
             assert (r1 = r2) by congruence; subst
         end; try congruence; try contradiction).
  all: cbn [fst snd trace]; eexists _, _; (split; [reflexivity|]);
    (split; [reflexivity|]).
  all: rewrite ?finds_app, ?pages_app, ?saves_app, ?finds_warning, ?pages_warning,
         ?saves_warning; cbn [same_exit lastID].
  all: repeat split; try reflexivity.
  all: try congruence.
  all: assert (id = id0) as -> by congruence; reflexivity.
Qed.

Lemma loop_counter_irrelevant workerID fuel :
  forall env c b1 b2 w1 w2,
  exists evs1 evs2,
    trace (exportWorker_loop workerID env fuel (mkLane c b1) w1).2 = trace w1 ++ evs1 /\
    trace (exportWorker_loop workerID env fuel (mkLane c b2) w2).2 = trace w2 ++ evs2 /\
    finds evs1 = finds evs2 /\
    map snd (pages evs1) = map snd (pages evs2) /\
    saves evs1 = saves evs2 /\
    same_exit (exportWorker_loop workerID env fuel (mkLane c b1) w1).1
              (exportWorker_loop workerID env fuel (mkLane c b2) w2).1.
Proof.
  induction fuel as [|fuel IH]; intros env c b1 b2 w1 w2.
  - exists [], []. cbn. rewrite !app_nil_r. repeat split; reflexivity.
  - cbn [exportWorker_loop].
    destruct (iter_counter_irrelevant workerID (env O) c b1 b2 w1 w2)
      as (a1 & a2 & Ht1 & Ht2 & Hf & Hp & Hs & Hx).
    destruct (exportWorker_iter workerID (env O) (mkLane c b1) w1) as [o1 v1].
    destruct (exportWorker_iter workerID (env O) (mkLane c b2) w2) as [o2 v2].
    cbn [fst snd] in *.
    destruct o1 as [[c1 n1]| | |], o2 as [[c2 n2]| | |]; cbn [same_exit lastID] in Hx;
      try contradiction.
    2-4: exists a1, a2; cbn [fst snd same_exit]; auto 10.
    subst c2.
    destruct (IH (fun i => env (S i)) c1 n1 n2 v1 v2)
      as (t1 & t2 & Hu1 & Hu2 & Hf' & Hp' & Hs' & Hx').
    exists (a1 ++ t1), (a2 ++ t2).
    rewrite Hu1, Hu2, Ht1, Ht2, <- !app_assoc.
    rewrite !finds_app, !pages_app, !saves_app, !map_app.
    repeat split; try congruence; try exact Hx'.
Qed.

(** X7. Resuming from the checkpoint file continues the export where
    it stood.  After an iteration whose checkpoint save succeeded, a lane
    started from what [loadLastID] reads sends the same queries, encodes
    the same pages, saves the same checkpoints and ends the same way as
    the lane that simply goes on; only the batch numbers differ. *)
Theorem restart_resumes `{UnicodeTrim} (workerID : Z) (e : IterEnv)
        (st : LaneState) (w : World) (st' : LaneState) (w' : World)
        (env : nat -> IterEnv) (fuel : nat) :
  exportWorker_iter workerID e st w = (Continue st', w') ->
  env_save e = SaveOk ->
  exists evs_go_on evs_restart,
    trace (exportWorker_loop workerID env fuel st' w').2 = trace w' ++ evs_go_on /\
    trace (exportWorker_loop workerID env fuel
             (lane_start (loadLastID (ckpt w'))) w').2 = trace w' ++ evs_restart /\
    finds evs_restart = finds evs_go_on /\
    map snd (pages evs_restart) = map snd (pages evs_go_on) /\
    saves evs_restart = saves evs_go_on /\
    same_exit (exportWorker_loop workerID env fuel
                 (lane_start (loadLastID (ckpt w'))) w').1
              (exportWorker_loop workerID env fuel st' w').1.
Proof.
  intros Hit Hs.
  assert (Hload : loadLastID (ckpt w') = lastID st').
  { iter_inv Hit. cbn [ckpt lastID]. rewrite Hs. apply loadLastID_Hex. }
  rewrite Hload. unfold lane_start. destruct st' as [c b]. cbn [lastID].
  destruct (loop_counter_irrelevant workerID fuel env c 1 b w' w')
    as (t1 & t2 & Ht1 & Ht2 & Hf & Hp & Hsv & Hx).
  exists t2, t1. auto 10.
Qed.

(** X7 after the first page of the collection with keys 5, 2, 9. *)
Lemma restart_resumes_witness :
  let e := store_env sample_store SaveOk in
  let r := exportWorker_iter 0 e (lane_start NilObjectID) (world0 None) in
  exists evs_go_on evs_restart,
    trace (exportWorker_loop 0 (fun _ => e) 2 (mkLane (oid_of x09) 2) r.2).2
      = trace r.2 ++ evs_go_on /\
    trace (exportWorker_loop 0 (fun _ => e) 2
             (lane_start (@loadLastID ascii_only (ckpt r.2))) r.2).2
      = trace r.2 ++ evs_restart /\
    finds evs_restart = finds evs_go_on /\
    map snd (pages evs_restart) = map snd (pages evs_go_on) /\
    saves evs_restart = saves evs_go_on /\
    same_exit (exportWorker_loop 0 (fun _ => e) 2
                 (lane_start (@loadLastID ascii_only (ckpt r.2))) r.2).1
              (exportWorker_loop 0 (fun _ => e) 2 (mkLane (oid_of x09) 2) r.2).1.
Proof.
  intros e r.
  apply (@restart_resumes ascii_only 0 e (lane_start NilObjectID) (world0 None));
    [vm_compute; reflexivity|reflexivity].
Defined.

(** ** The checkpoint moves forward *)

Lemma bytes_eqb_eq (a b : list byte) : bytes_eqb a b = true -> a = b.
Proof.
  revert b; induction a as [|x a IH]; intros [|y b]; simpl; try discriminate;
    [reflexivity|].
  intros [Hxy Hab]%andb_prop. apply Byte.byte_dec_bl in Hxy. f_equal; auto.
Qed.

Lemma IsZero_true (k : ObjectID) : IsZero k = true -> k = NilObjectID.
Proof. intros Hz. apply oid_eq, bytes_eqb_eq, Hz. Qed.

Lemma lex_leb_zeros (n : nat) (l : list N) :
  length l = n -> lex_leb (map Byte.to_N (repeat x00 n)) l = true.
Proof.
  revert l; induction n as [|n IH]; intros [|y l] Hl; simpl in *; try discriminate;
    [reflexivity|].
  destruct (N.ltb_spec 0 y); [reflexivity|].
  assert (y = 0%N) as -> by lia. simpl. apply IH. lia.
Qed.

Lemma zero_is_least (k c : ObjectID) :
  IsZero k = true -> value_leb (VObjectID k) (VObjectID c) = true.
Proof.
  intros ->%IsZero_true. unfold value_leb. cbn [bson_rank].
  change (8 <? 8)%N with false. change (8 =? 8)%N with true. cbv iota.
  apply (lex_leb_zeros 12). cbn [bson_bytes]. rewrite length_map.
  pose proof (oid_len c) as Hc. apply Nat.eqb_eq in Hc. exact Hc.
Qed.

Lemma oid_lt_not_zero (c k : ObjectID) : oid_lt c k -> IsZero k = false.
Proof.
  unfold oid_lt, value_ltb. intros Hlt. destruct (IsZero k) eqn:Hz; [|reflexivity].
  rewrite (zero_is_least k c Hz) in Hlt. discriminate.
Qed.

Lemma oid_lt_trans (a b c : ObjectID) : oid_lt a b -> oid_lt b c -> oid_lt a c.
Proof. unfold oid_lt. apply value_ltb_trans. Qed.

(** X8. The checkpoint only moves forward.  From a cursor other than
    the zero ObjectID, with every [Find] answered from a collection
    (which may differ from fetch to fetch), the keys passed to
    [saveLastID] during the loop are all beyond the starting cursor and
    strictly ascending in the order of the store. *)
Theorem checkpoints_strictly_ascend (workerID : Z) (stores : nat -> list Doc)
        (fuel : nat) (env : nat -> IterEnv) (st : LaneState) (w : World) :
  (forall i q, env_find (env i) q = Results (mongoFind (stores i) q)) ->
  IsZero (lastID st) = false ->
  exists evs,
    trace (exportWorker_loop workerID env fuel st w).2 = trace w ++ evs /\
    Forall (oid_lt (lastID st)) (saves evs) /\
    StronglySorted oid_lt (saves evs).
Proof.
  revert stores env st w. induction fuel as [|fuel IH]; intros stores env st w Henv Hz.
  - exists []. cbn. rewrite app_nil_r. repeat constructor.
  - cbn [exportWorker_loop].
    destruct (iter_specP workerID (env O) st w).
    1-6: eexists; cbn [snd trace]; (split; [reflexivity|]);
         rewrite ?saves_app; cbn; repeat constructor.
    match goal with
    | Hf : env_find _ _ = Results ?r, Ha : assert_ObjectID _ = Some _ |- _ =>
        rewrite Henv in Hf; injection Hf as <-;
        apply assert_ObjectID_Some in Ha as Hl
    end.
    assert (Hlt : oid_lt (lastID st) id).
    { unfold last_id_field in Hl.
      destruct (last (mongoFind (stores O) (lane_query (lastID st)))) as [dl|] eqn:El;
        [|discriminate].
      apply last_Some_elem_of in El.
      pose proof (page_above_cursor _ _ _ Hz El) as Hgt.
      unfold field_of in Hgt. rewrite Hl in Hgt.
      unfold oid_lt, value_ltb. rewrite Hgt. reflexivity. }
    match goal with
    | |- context [exportWorker_loop _ _ _ ?st1 ?w1] =>
        destruct (IH (fun i => stores (S i)) (fun i => env (S i)) st1 w1)
          as (evs2 & Ht2 & Hall2 & Hsort2);
          [intros i q; apply Henv|eapply oid_lt_not_zero, Hlt|]
    end.
    cbn [lastID trace] in *.
    eexists. split; [rewrite Ht2, <- app_assoc; reflexivity|].
    rewrite !saves_app, saves_warning. cbn.
    split.
    + constructor; [exact Hlt|].
      eapply Forall_impl; [exact Hall2|]. intros k Hk. eapply oid_lt_trans; eassumption.
    + constructor; assumption.
Qed.

(** X8 on the collection with keys 5, 2, 9, from the cursor 2. *)
Lemma checkpoints_strictly_ascend_witness :
  exists evs,
    trace (exportWorker_loop 0 (fun _ => store_env sample_store SaveOk) 3
             (lane_start (oid_of x02)) (world0 None)).2 = [] ++ evs /\
    Forall (oid_lt (oid_of x02)) (saves evs) /\
    StronglySorted oid_lt (saves evs).
Proof.
  apply (checkpoints_strictly_ascend 0 (fun _ => sample_store) 3
           (fun _ => store_env sample_store SaveOk) (lane_start (oid_of x02))
           (world0 None)); [intros i q|]; reflexivity.
Defined.

(** ** The channel and the wait group *)

Lemma inv_chan_init id w : inv_chan (init id w).
Proof. unfold inv_chan, init; simpl. repeat split; auto; discriminate. Qed.

Lemma inv_chan_step s s' : inv_chan s -> step s s' -> inv_chan s'.
Proof.
  intros (Hcl & Hm & Hwg) Hs.
  destruct Hs as [s id _ Hmain _ _
                 | s _ Hmain
                 | s _ Hmain _
                 | s _ Hcw _
                 | s _ Hcc
                 | s i pc id rest _ _ _ _
                 | s i pc _ _ _ _ _
                 | s i st e out w' _ _ _
                 | s i _ _ ]; unfold inv_chan; simpl.
  - split; [exact Hcl|]. split; [|exact Hwg]. intros _. apply Hm. eauto.
  - split; [|split; [|exact Hwg]].
    + intros Hc. apply Hcl in Hc. rewrite Hm in Hc by auto. discriminate.
    + intros [[? ?]|?]; discriminate.
  - split; [exact Hcl|]. split; [|exact Hwg]. intros [[? ?]|?]; discriminate.
  - split; [|split; [|exact Hwg]].
    + intros Hc. apply Hcl in Hc. congruence.
    + intros Hx. apply Hm in Hx. congruence.
  - split; [reflexivity|]. split; [|exact Hwg].
    intros Hx. apply Hm in Hx. congruence.
  - auto.
  - split; [exact Hcl|]. split; [exact Hm|lia].
  - destruct out; simpl; (split; [exact Hcl|]); (split; [exact Hm|lia]).
  - auto.
Qed.

Lemma inv_chan_reachable s0 s : inv_chan s0 -> reachable s0 s -> inv_chan s.
Proof.
  intros H0 Hr. induction Hr as [|a b c Hab Hbc IH]; [exact H0|].
  apply IH. eapply inv_chan_step; eassumption.
Qed.

(** X9. The channel is used without a run-time panic and without
    blocking the sender: in every state main can reach, the send of
    [lastID] finds the channel open and its buffer empty, the buffer
    never holds more than its capacity of one value, the channel is
    closed only when every worker has exited, and no worker ever leaves
    [range workChan] because the channel was closed. *)
Theorem channel_is_used_safely (id : ObjectID) (w : World) (s : Sys) :
  reachable (init id w) s ->
  (forall c, main_pc s = MFeed c -> chan_closed s = false /\ chan_buf s = []) /\
  (chan_closed s = true -> Forall exited (lanes s)) /\
  Forall (fun pc => pc <> WRangeEnd) (lanes s) /\
  length (chan_buf s) <= 1.
Proof.
  intros Hr.
  assert (Hi : inv s) by (eapply inv_reachable; [apply inv_init|exact Hr]).
  assert (Hc : inv_chan s) by (eapply inv_chan_reachable; [apply inv_chan_init|exact Hr]).
  destruct Hi as (Hwg & Hcl & _ & _ & Hre & Htok & _).
  destruct Hc as (Hce & Hm & _).
  split; [|split; [|split]].
  - intros c Hc. split.
    + destruct (chan_closed s) eqn:E; [|reflexivity].
      rewrite Hm in Hce by eauto. specialize (Hce eq_refl). discriminate.
    + rewrite Hc in Htok. destruct (chan_buf s); [reflexivity|simpl in Htok; lia].
  - intros Hc. specialize (Hcl Hc). rewrite Hcl in Hwg. symmetry in Hwg.
    apply sum_zero_Forall in Hwg.
    rewrite Forall_forall in Hwg, Hre. apply Forall_forall. intros pc Hpc.
    specialize (Hwg pc Hpc). specialize (Hre pc Hpc). unfold exited.
    destruct pc; simpl in Hwg; try discriminate; auto. congruence.
  - exact Hre.
  - destruct (main_pc s); lia.
Qed.

(** X9 on the state after a failed [Find]. *)
Lemma channel_is_used_safely_witness :
  Forall (fun pc => pc <> WRangeEnd) (lanes failed_state) /\
  length (chan_buf failed_state) <= 1.
Proof.
  destruct (channel_is_used_safely NilObjectID (world0 None) failed_state
              failed_state_reachable) as (_ & _ & Hre & Hlen).
  split; assumption.
Defined.

(** X10. The wait group never goes negative ([wg.Done] would panic):
    in every state main can reach the counter is at most [workers], and
    a step either leaves it alone or takes one from a counter above
    zero. *)
Theorem wait_group_never_negative (id : ObjectID) (w : World) (s s' : Sys) :
  reachable (init id w) s -> step s s' ->
  wg s <= workers /\
  (wg s' = wg s \/ (0 < wg s /\ wg s' = wg s - 1)).
Proof.
  intros Hr Hs.
  assert (Hi : inv s) by (eapply inv_reachable; [apply inv_init|exact Hr]).
  assert (Hc : inv_chan s) by (eapply inv_chan_reachable; [apply inv_chan_init|exact Hr]).
  destruct Hi as (Hwg & _). destruct Hc as (_ & _ & Hle).
  split; [exact Hle|].
  destruct Hs as [| | | | | |s i pc _ Hi Hat _ _|s i st e out w' _ Hi _|]; simpl; auto.
  - right. pose proof (sum_lookup_le live _ _ _ Hi) as Hl.
    destruct pc; simpl in Hat, Hl; try discriminate; lia.
  - pose proof (sum_lookup_le live _ _ _ Hi) as Hl. simpl in Hl.
    destruct out; simpl; auto; right; lia.
Qed.

Lemma start_reaches_loop (id : ObjectID) (w : World) :
  reachable (init id w) (in_loop (lane_start id) w).
Proof.
  unfold reachable, init, in_loop, workers.
  eapply rtc_l; [apply (step_feed _ id); step_side|]. simpl.
  eapply rtc_l; [apply step_go; step_side|]. simpl.
  eapply rtc_l; [eapply (step_recv _ 0 WRange id []); step_side|]. simpl.
  apply rtc_refl.
Qed.

(** X10 on the step of a worker whose [Find] fails. *)
Lemma wait_group_never_negative_witness :
  let s := in_loop (lane_start NilObjectID) (world0 None) in
  let s' := after_iter s 0 Return
              (exportWorker_iter 0 failing_env (lane_start NilObjectID) (world0 None)).2 in
  wg s <= workers /\ (wg s' = wg s \/ (0 < wg s /\ wg s' = wg s - 1)).
Proof.
  intros s s'.
  apply (wait_group_never_negative NilObjectID (world0 None) s).
  - exact (start_reaches_loop NilObjectID (world0 None)).
  - apply (step_iter s 0 (lane_start NilObjectID) failing_env); step_side.
Defined.

(** ** [getUserInputs] *)

Lemma ReadString_line (l rest : string) :
  newline ∉ list_ascii_of_string l ->
  ReadString newline (l +:+ String newline rest) =
    (l +:+ String newline EmptyString, false, rest).
Proof.
  induction l as [|c l IH]; intros Hl; [reflexivity|].
  simpl in Hl. apply not_elem_of_cons in Hl as [Hc Hl].
  change (String c l +:+ String newline rest)
    with (String c (l +:+ String newline rest)).
  change (ReadString newline (String c (l +:+ String newline rest))) with
    (if Ascii.eqb c newline then (String c EmptyString, false, l +:+ String newline rest)
     else let '(line, err, unread) := ReadString newline (l +:+ String newline rest) in
          (String c line, err, unread)).
  destruct (Ascii.eqb_spec c newline) as [E|_]; [congruence|].
  rewrite (IH Hl). reflexivity.
Qed.

Lemma ReadString_eof (s : string) :
  newline ∉ list_ascii_of_string s ->
  ReadString newline s = (s, true, EmptyString).
Proof.
  induction s as [|c s IH]; intros Hs; [reflexivity|].
  simpl in Hs. apply not_elem_of_cons in Hs as [Hc Hs].
  change (ReadString newline (String c s)) with
    (if Ascii.eqb c newline then (String c EmptyString, false, s)
     else let '(line, err, unread) := ReadString newline s in
          (String c line, err, unread)).
  destruct (Ascii.eqb_spec c newline) as [E|_]; [congruence|].
  rewrite (IH Hs). reflexivity.
Qed.

Lemma asciiSpace_ascii (c : ascii) :
  asciiSpace c = true -> (RuneSelf <=? N_of_ascii c)%N = false.
Proof. destruct c as [[] [] [] [] [] [] [] []]; vm_compute; congruence. Qed.

Section Trimming.
Context `{UnicodeTrim}.

Lemma trim_start_blanks (a s : string) :
  blanks a -> trim_start (a +:+ s) = trim_start s.
Proof.
  unfold blanks. induction a as [|c a IH]; intros Ha; [reflexivity|].
  simpl in Ha. inversion Ha as [|? ? Hc Ha']; subst.
  simpl. rewrite (asciiSpace_ascii c Hc), Hc. auto.
Qed.

Lemma trim_start_all_blanks (b : string) : blanks b -> trim_start b = inr EmptyString.
Proof.
  unfold blanks. induction b as [|c b IH]; intros Hb; [reflexivity|].
  simpl in Hb. inversion Hb as [|? ? Hc Hb']; subst.
  simpl. rewrite (asciiSpace_ascii c Hc), Hc. auto.
Qed.

Lemma trim_stop_blanks (r1 r2 : list ascii) :
  Forall (fun c => asciiSpace c = true) r1 -> trim_stop (r1 ++ r2) = trim_stop r2.
Proof.
  induction 1 as [|c r1 Hc _ IH]; [reflexivity|].
  simpl. rewrite (asciiSpace_ascii c Hc), Hc. exact IH.
Qed.

Lemma TrimSpace_padded (a t b : string) :
  blanks a -> blanks b ->
  (t = EmptyString \/
   exists c l d, list_ascii_of_string t = c :: l /\
                 last (c :: l) = Some d /\ plain c = true /\ plain d = true) ->
  TrimSpace (a +:+ t +:+ b) = t.
Proof.
  intros Ha Hb Ht. unfold TrimSpace. rewrite (trim_start_blanks a _ Ha).
  destruct Ht as [->|(c & l & d & Hcl & Hlast & Hc & Hd)].
  - change (EmptyString +:+ b) with b.
    rewrite (trim_start_all_blanks b Hb). reflexivity.
  - destruct t as [|c' t']; [discriminate|].
    simpl in Hcl. injection Hcl as -> Hl.
    change (String c t' +:+ b) with (String c (t' +:+ b)).
    rewrite (trim_start_plain c _ Hc).
    change (String c (t' +:+ b)) with (String c t' +:+ b).
    rewrite chars_append, rev_app_distr.
    rewrite trim_stop_blanks by (apply Forall_rev, Hb).
    apply last_Some in Hlast as [l' Hl'].
    assert (Hrev : rev (list_ascii_of_string (String c t')) = d :: rev l').
    { simpl list_ascii_of_string. rewrite Hl, Hl', rev_app_distr. reflexivity. }
    rewrite Hrev, (trim_stop_plain d _ Hd), <- Hrev, rev_involutive.
    apply string_of_list_ascii_of_string.
Qed.

End Trimming.

Lemma append_assoc (a b c : string) : (a +:+ b) +:+ c = a +:+ b +:+ c.
Proof.
  induction a as [|x a IH]; [reflexivity|].
  change (String x ((a +:+ b) +:+ c) = String x (a +:+ b +:+ c)).
  rewrite IH. reflexivity.
Qed.

Lemma chars_not_elem_append (x : ascii) (a b : string) :
  x ∉ list_ascii_of_string a -> x ∉ list_ascii_of_string b ->
  x ∉ list_ascii_of_string (a +:+ b).
Proof. rewrite chars_append, not_elem_of_app. auto. Qed.

Lemma blanks_append (a b : string) : blanks a -> blanks b -> blanks (a +:+ b).
Proof. unfold blanks. rewrite chars_append. apply Forall_app_2. Qed.

Lemma ReadString_typed (a t b rest : string) :
  pad a -> answer t -> pad b ->
  ReadString newline (typed a t b +:+ rest) = (typed a t b, false, rest).
Proof.
  intros [_ Ha] [Ht _] [_ Hb]. unfold typed.
  rewrite <- !append_assoc.
  rewrite (append_assoc _ (String newline EmptyString) rest).
  change (String newline EmptyString +:+ rest) with (String newline rest).
  apply ReadString_line.
  rewrite append_assoc. auto using chars_not_elem_append.
Qed.

Section Answers.
Context `{UnicodeTrim}.

Lemma TrimSpace_typed (a t b : string) :
  pad a -> answer t -> pad b -> TrimSpace (typed a t b) = t.
Proof.
  intros [Ha _] [_ Ht] [Hb _]. unfold typed.
  apply TrimSpace_padded; [exact Ha| |exact Ht].
  apply blanks_append; [exact Hb|].
  unfold blanks. simpl. constructor; [reflexivity|constructor].
Qed.

(** X11. [getUserInputs] on three typed lines.  When each line holds
    blanks, an answer and blanks before its line break (a carriage
    return counts as a blank), and the answer is empty or starts and ends
    with an ASCII character that is not a blank, the function prints the
    three prompts and returns the three answers without the blanks and
    the line breaks; what follows the third line stays in the reader. *)
Theorem getUserInputs_reads_three_lines (a1 t1 b1 a2 t2 b2 a3 t3 b3 rest : string) :
  pad a1 -> answer t1 -> pad b1 ->
  pad a2 -> answer t2 -> pad b2 ->
  pad a3 -> answer t3 -> pad b3 ->
  getUserInputs (typed a1 t1 b1 +:+ typed a2 t2 b2 +:+ typed a3 t3 b3 +:+ rest) =
    ((t1, t2, t3), prompts, rest).
Proof.
  intros Ha1 Ht1 Hb1 Ha2 Ht2 Hb2 Ha3 Ht3 Hb3. unfold getUserInputs. cbv zeta.
  rewrite (ReadString_typed a1 t1 b1 _ Ha1 Ht1 Hb1).
  rewrite (ReadString_typed a2 t2 b2 _ Ha2 Ht2 Hb2).
  rewrite (ReadString_typed a3 t3 b3 _ Ha3 Ht3 Hb3).
  rewrite !TrimSpace_typed by assumption. reflexivity.
Qed.

(** X12. [getUserInputs] drops the errors of [ReadString].  When the
    input ends inside the second line, the function still returns: the
    second answer is what was typed before the end of the input, and the
    collection name is the empty string. *)
Theorem getUserInputs_ignores_end_of_input (a1 t1 b1 a2 t2 b2 : string) :
  pad a1 -> answer t1 -> pad b1 ->
  pad a2 -> answer t2 -> pad b2 ->
  getUserInputs (typed a1 t1 b1 +:+ a2 +:+ t2 +:+ b2) =
    ((t1, t2, EmptyString), prompts, EmptyString).
Proof.
  intros Ha1 Ht1 Hb1 Ha2 Ht2 Hb2. unfold getUserInputs. cbv zeta.
  rewrite (ReadString_typed a1 t1 b1 _ Ha1 Ht1 Hb1).
  rewrite (ReadString_eof (a2 +:+ t2 +:+ b2)).
  2:{ destruct Ha2 as [_ Ha2], Ht2 as [Ht2 _], Hb2 as [_ Hb2].
      auto using chars_not_elem_append. }
  cbn [ReadString].
  rewrite (TrimSpace_typed a1 t1 b1) by assumption.
  rewrite (TrimSpace_padded a2 t2 b2) by (apply Ha2 || apply Hb2 || apply Ht2).
  reflexivity.
Qed.

End Answers.

Ltac one_line :=
  let Hin := fresh in
  intros Hin;
  repeat (apply elem_of_cons in Hin as [Hin|Hin]; [discriminate Hin|]);
  inversion Hin.

Ltac as_typed :=
  first [ split; [repeat constructor|one_line]
        | split; [one_line|]; first [left; reflexivity
                                    |right; eexists _, _, _; repeat split; reflexivity] ].

(** X11 on three lines: one padded and ended by a carriage return, one
    padded behind, one empty. *)
Lemma getUserInputs_reads_three_lines_witness :
  @getUserInputs ascii_only
    (typed " " typed_uri (String carriage_return "") +:+
     typed "" "shop" "  " +:+ typed "" "" "" +:+ "rest") =
  ((typed_uri, "shop", ""), prompts, "rest").
Proof.
  apply (@getUserInputs_reads_three_lines ascii_only); as_typed.
Defined.

(** X12 on an input that ends behind the database name. *)
Lemma getUserInputs_ignores_end_of_input_witness :
  @getUserInputs ascii_only (typed " " typed_uri "" +:+ "" +:+ "shop" +:+ " ") =
  ((typed_uri, "shop", ""), prompts, "").
Proof.
  apply (@getUserInputs_ignores_end_of_input ascii_only); as_typed.
Defined.

(** ** What a whole run exports *)

Lemma lex_leb_antisym (a b : list N) :
  lex_leb a b = true -> lex_leb b a = true -> a = b.
Proof.
  revert b. induction a as [|x a IH]; intros [|y b]; simpl; try congruence.
  destruct (N.ltb_spec x y), (N.ltb_spec y x); try lia.
  - destruct (N.eqb_spec y x); [lia|discriminate].
  - destruct (N.eqb_spec x y); [lia|discriminate].
  - destruct (N.eqb_spec x y), (N.eqb_spec y x); try discriminate; try lia.
    intros Hab Hba. f_equal; auto.
Qed.

Lemma to_N_inj (a b : list byte) : map Byte.to_N a = map Byte.to_N b -> a = b.
Proof.
  revert b. induction a as [|x a IH]; intros [|y b] E; try discriminate; [reflexivity|].
  simpl in E. injection E as Exy E. f_equal; [|auto].
  pose proof (Byte.of_to_N x) as Hx. rewrite Exy, Byte.of_to_N in Hx. congruence.
Qed.

Lemma oid_leb_antisym (a b : ObjectID) :
  value_leb (VObjectID a) (VObjectID b) = true ->
  value_leb (VObjectID b) (VObjectID a) = true -> a = b.
Proof.
  unfold value_leb. cbn [bson_rank bson_bytes].
  change (8 <? 8)%N with false. change (8 =? 8)%N with true. cbv iota.
  intros Hab Hba. apply oid_eq, to_N_inj, lex_leb_antisym; assumption.
Qed.

Lemma insert_by_Permutation f d l : insert_by f d l ≡ₚ d :: l.
Proof.
  induction l as [|x l IH]; [reflexivity|]. simpl.
  destruct (value_leb _ _); [reflexivity|].
  rewrite IH. apply Permutation_swap.
Qed.

Lemma sort_by_Permutation f l : sort_by f l ≡ₚ l.
Proof.
  induction l as [|x l IH]; [reflexivity|]. simpl.
  rewrite insert_by_Permutation, IH. reflexivity.
Qed.

Lemma insert_by_least f d l :
  Forall (fun x => value_leb (field_of f d) (field_of f x) = true) l ->
  insert_by f d l = d :: l.
Proof. destruct 1 as [|x l Hx _]; [reflexivity|]. simpl. rewrite Hx. reflexivity. Qed.

Lemma filter_insert_by (P : Doc -> bool) f d l :
  ascending f l ->
  filter (fun x => P x) (insert_by f d l) =
    if P d then insert_by f d (filter (fun x => P x) l)
    else filter (fun x => P x) l.
Proof.
  unfold ascending. induction 1 as [|x l Hl IH Hx].
  - simpl. rewrite filter_cons. destruct (P d); reflexivity.
  - cbn [insert_by]. destruct (value_leb (field_of f d) (field_of f x)) eqn:E.
    + rewrite (filter_cons _ d). destruct (P d) eqn:Ed; [|reflexivity].
      simpl. symmetry. apply insert_by_least.
      apply Forall_forall. intros y [_ Hy]%list_elem_of_filter.
      apply elem_of_cons in Hy as [->|Hy]; [exact E|].
      rewrite Forall_forall in Hx.
      eapply value_leb_trans; [exact E|apply Hx, Hy].
    + rewrite !(filter_cons _ x), IH.
      destruct (P x) eqn:Ex, (P d) eqn:Ed; simpl; rewrite ?E; reflexivity.
Qed.

Lemma filter_sort_by (P : Doc -> bool) f (l : list Doc) :
  filter (fun x => P x) (sort_by f l) = sort_by f (filter (fun x => P x) l).
Proof.
  induction l as [|d l IH]; [reflexivity|].
  change (sort_by f (d :: l)) with (insert_by f d (sort_by f l)).
  rewrite filter_insert_by by apply ascending_sort_by.
  rewrite filter_cons, IH. destruct (P d); reflexivity.
Qed.

Lemma filter_none (P : Doc -> bool) (l : list Doc) :
  (forall x, x ∈ l -> P x = false) -> filter (fun x => P x) l = [].
Proof.
  induction l as [|d l IH]; intros Hl; [reflexivity|].
  rewrite filter_cons, (Hl d) by left. simpl. apply IH.
  intros x Hx. apply Hl. right. exact Hx.
Qed.

Lemma filter_every (P : Doc -> bool) (l : list Doc) :
  (forall x, x ∈ l -> P x = true) -> filter (fun x => P x) l = l.
Proof.
  induction l as [|d l IH]; intros Hl; [reflexivity|].
  rewrite filter_cons, (Hl d) by left. simpl. f_equal. apply IH.
  intros x Hx. apply Hl. right. exact Hx.
Qed.

Lemma filter_narrow (P Q : Doc -> bool) (l : list Doc) :
  (forall x, P x = true -> Q x = true) ->
  filter (fun x => P x) (filter (fun x => Q x) l) = filter (fun x => P x) l.
Proof.
  intros HPQ. induction l as [|d l IH]; [reflexivity|].
  rewrite !(filter_cons _ d). destruct (Q d) eqn:Eq; simpl.
  - rewrite filter_cons, IH. reflexivity.
  - destruct (P d) eqn:Ep; [|exact IH].
    rewrite (HPQ d Ep) in Eq. discriminate.
Qed.

Lemma ascending_app f (A B : list Doc) :
  ascending f (A ++ B) ->
  ascending f A /\
  forall x y, x ∈ A -> y ∈ B -> value_leb (field_of f x) (field_of f y) = true.
Proof.
  unfold ascending. induction A as [|a A IH]; simpl; intros Hs.
  - split; [constructor|]. intros x y Hx. inversion Hx.
  - inversion Hs as [|? ? Hs' Ha]; subst. destruct (IH Hs') as [HA Hxy].
    apply Forall_app in Ha as [HaA HaB]. split; [constructor; assumption|].
    intros x y [->|Hx]%elem_of_cons Hy; [|auto].
    rewrite Forall_forall in HaB. apply HaB, Hy.
Qed.

(** On a list in strictly ascending key order, the records beyond the
    key of the last record of a prefix are the rest of the list. *)
Lemma filter_gt_split (A B : list Doc) (dl : Doc) (id : ObjectID) :
  ascending "_id" (A ++ B) ->
  NoDup (map (field_of "_id") (A ++ B)) ->
  Forall (fun d => exists k, d !! "_id" = Some (VObjectID k)) B ->
  last A = Some dl -> dl !! "_id" = Some (VObjectID id) ->
  filter (fun d => matches (FilterGt "_id" id) d) (A ++ B) = B.
Proof.
  intros Hasc Hnd HB Hlast Hid.
  assert (Hkey : field_of "_id" dl = VObjectID id)
    by (unfold field_of; rewrite Hid; reflexivity).
  rewrite filter_app, filter_none, filter_every; [reflexivity| |].
  - intros y Hy. rewrite Forall_forall in HB. destruct (HB y Hy) as [k Hk].
    simpl. rewrite Hk. unfold value_ltb. apply negb_true_iff.
    destruct (value_leb (VObjectID k) (VObjectID id)) eqn:E; [|reflexivity].
    exfalso.
    assert (Hle : value_leb (field_of "_id" dl) (field_of "_id" y) = true).
    { apply (ascending_app "_id" A B Hasc); [|exact Hy].
      eapply last_Some_elem_of, Hlast. }
    assert (Hy' : field_of "_id" y = VObjectID k)
      by (unfold field_of; rewrite Hk; reflexivity).
    rewrite Hkey, Hy' in Hle.
    assert (id = k) as -> by (apply oid_leb_antisym; assumption).
    rewrite map_app in Hnd. apply NoDup_app in Hnd as (_ & Hnd & _).
    apply (Hnd (VObjectID k)).
    + rewrite <- Hkey. apply list_elem_of_fmap_2. eapply last_Some_elem_of, Hlast.
    + rewrite <- Hy'. apply list_elem_of_fmap_2. exact Hy.
  - intros x Hx. simpl.
    assert (Hle : value_leb (field_of "_id" x) (field_of "_id" dl) = true).
    { apply (ascending_last_max "_id" A); [|exact Hlast|exact Hx].
      apply (ascending_app "_id" A B Hasc). }
    rewrite Hkey in Hle. unfold field_of in Hle.
    destruct (x !! "_id") as [[| |k|]|]; try reflexivity.
    unfold value_ltb. rewrite Hle. reflexivity.
Qed.

Lemma keyed_page (store : list Doc) (c : ObjectID) :
  keyed store ->
  let R := sort_by "_id" (filter (fun d => matches (lane_filter c) d) store) in
  ascending "_id" R /\
  NoDup (map (field_of "_id") R) /\
  forall d, d ∈ R ->
    matches (lane_filter c) d = true /\
    exists k, d !! "_id" = Some (VObjectID k) /\ IsZero k = false.
Proof.
  intros [Hkeys Hnd] R. split; [apply ascending_sort_by|]. split.
  - unfold R. rewrite sort_by_Permutation.
    eapply sublist_NoDup; [exact Hnd|].
    apply fmap_sublist, sublist_filter.
  - intros d Hd. unfold R in Hd. apply elem_of_sort_by in Hd.
    apply list_elem_of_filter in Hd as [Hm Hd]. split.
    + destruct (matches (lane_filter c) d); [reflexivity|contradiction].
    + rewrite Forall_forall in Hkeys. apply Hkeys, Hd.
Qed.

Lemma next_page (store : list Doc) (c id : ObjectID) (dl : Doc) :
  keyed store ->
  last (mongoFind store (lane_query c)) = Some dl ->
  dl !! "_id" = Some (VObjectID id) ->
  sort_by "_id" (filter (fun d => matches (lane_filter id) d) store) =
    drop (Z.to_nat batchSize)
         (sort_by "_id" (filter (fun d => matches (lane_filter c) d) store)).
Proof.
  intros Hk Hlast Hid. rewrite mongoFind_lane in Hlast.
  destruct (keyed_page store c Hk) as (Hasc & Hnd & HR).
  set (R := sort_by "_id" (filter (fun d => matches (lane_filter c) d) store)) in *.
  assert (HdlR : dl ∈ R) by (eapply subseteq_take, last_Some_elem_of, Hlast).
  destruct (HR dl HdlR) as (Hm & k & Hk' & Hz).
  assert (k = id) as -> by congruence.
  assert (lane_filter id = FilterGt "_id" id) as ->
    by (unfold lane_filter; rewrite Hz; reflexivity).
  rewrite <- (filter_narrow (fun d => matches (FilterGt "_id" id) d)
                            (fun d => matches (lane_filter c) d)).
  2:{ intros x Hx. unfold lane_filter in Hm |- *.
      destruct (IsZero c); cbn [negb] in Hm |- *; [reflexivity|].
      apply (matches_gt_trans c id); [|exact Hx].
      simpl in Hm. rewrite Hid in Hm. exact Hm. }
  rewrite <- filter_sort_by. fold R.
  transitivity (filter (fun d => matches (FilterGt "_id" id) d)
                       (take (Z.to_nat batchSize) R ++ drop (Z.to_nat batchSize) R));
    [rewrite take_drop; reflexivity|].
  apply (filter_gt_split _ _ dl); rewrite ?take_drop; auto.
  apply Forall_forall. intros y Hy.
  assert (HyR : y ∈ R) by (eapply subseteq_drop, Hy).
  destruct (HR y HyR) as (_ & ky & Hky & _). eauto.
Qed.

Lemma exported_app (a b : list Event) : exported (a ++ b) = exported a ++ exported b.
Proof. unfold exported. rewrite pages_app, map_app, concat_app. reflexivity. Qed.

Lemma exported_page q p (rs : list Doc) id o tl :
  exported ([EvFind q; EvCreate p; EvEncode p rs; EvSave id] ++ save_warning o ++ tl) =
    rs ++ exported tl.
Proof.
  unfold exported. rewrite !pages_app, pages_warning.
  change (pages [EvFind q; EvCreate p; EvEncode p rs; EvSave id]) with [(p, rs)].
  reflexivity.
Qed.

Lemma exported_log m : exported [EvLog m] = [].
Proof. reflexivity. Qed.

Lemma batchSize_pos : 0 < Z.to_nat batchSize.
Proof. unfold batchSize. lia. Qed.

Lemma loop_exports workerID (store : list Doc) :
  keyed store ->
  forall fuel (o : nat -> SaveOutcome) st w,
    length (sort_by "_id" (filter (fun d => matches (lane_filter (lastID st)) d) store))
      < fuel ->
    exists evs w',
      exportWorker_loop workerID (fun i => store_env store (o i)) fuel st w = (Break, w') /\
      trace w' = trace w ++ evs /\
      exported evs =
        sort_by "_id" (filter (fun d => matches (lane_filter (lastID st)) d) store).
Proof.
  intros Hk. induction fuel as [|fuel IH]; intros o st w Hlen; [lia|].
  cbn [exportWorker_loop]. cbn beta.
  destruct (keyed_page store (lastID st) Hk) as (_ & _ & HR).
  pose proof batchSize_pos as HB.
  set (R := sort_by "_id" (filter (fun d => matches (lane_filter (lastID st)) d) store)) in *.
  assert (Hpage : mongoFind store (lane_query (lastID st)) = take (Z.to_nat batchSize) R)
    by apply mongoFind_lane.
  destruct (iter_specP workerID (store_env store (o 0%nat)) st w);
    cbn [env_find env_create env_encode env_save store_env] in *; try discriminate.
  - match goal with Hf : Results _ = Results [] |- _ => injection Hf as Hnil end.
    rewrite Hpage in Hnil. apply (f_equal length) in Hnil.
    rewrite length_take in Hnil.
    destruct R as [|r R']; [|cbn [length] in Hnil; lia].
    eexists _, _. split; [reflexivity|]. split; reflexivity.
  - exfalso.
    match goal with Hf : Results _ = Results _ |- _ => injection Hf as Hres end.
    subst results. unfold last_id_field in *.
    destruct (last (mongoFind store (lane_query (lastID st)))) as [dl|] eqn:El.
    + assert (HdlR : dl ∈ R).
      { rewrite Hpage in El. eapply subseteq_take, last_Some_elem_of, El. }
      destruct (HR dl HdlR) as (_ & k & Hk' & _).
      match goal with Ha : assert_ObjectID _ = None |- _ => rewrite Hk' in Ha; discriminate Ha end.
    + apply last_None in El. congruence.
  - match goal with Hf : Results _ = Results _ |- _ => injection Hf as Hres end.
    subst results.
    match goal with Ha : assert_ObjectID _ = Some _ |- _ =>
      apply assert_ObjectID_Some in Ha as Hl end.
    unfold last_id_field in Hl.
    destruct (last (mongoFind store (lane_query (lastID st)))) as [dl|] eqn:El;
      [|discriminate].
    pose proof (next_page store (lastID st) id dl Hk El Hl) as Hnext. fold R in Hnext.
    match goal with
    | |- context [exportWorker_loop _ _ _ ?st1 ?w1] =>
        destruct (IH (fun i => o (S i)) st1 w1) as (evs2 & w2 & Hl2 & Ht2 & He2)
    end.
    { cbn [lastID]. rewrite Hnext, length_drop.
      assert (0 < length R); [|lia].
      destruct R; [|cbn [length]; lia]. rewrite Hpage, take_nil in El. discriminate. }
    cbn [lastID trace] in *.
    eexists _, w2. split; [exact Hl2|]. split.
    + rewrite Ht2, <- app_assoc. reflexivity.
    + rewrite exported_app, exported_page, exported_log, app_nil_r, He2, Hnext, Hpage.
      apply take_drop.
Qed.

(** X13. On a collection that does not change, whose records carry
    distinct ObjectID keys other than the zero ObjectID, and without I/O
    errors, the inner loop ends on the empty page within one iteration
    more than the collection has records, and what it has encoded,
    batch after batch, is exactly the records beyond the starting cursor
    in ascending key order: each one once.  From the nil cursor that is
    the whole collection. *)
Theorem export_is_complete (workerID : Z) (store : list Doc)
        (o : nat -> SaveOutcome) (fuel : nat) (c : ObjectID) (w : World) :
  keyed store -> length store < fuel ->
  exists evs w',
    exportWorker_loop workerID (fun i => store_env store (o i)) fuel (lane_start c) w
      = (Break, w') /\
    trace w' = trace w ++ evs /\
    exported evs = sort_by "_id" (filter (fun d => matches (lane_filter c) d) store) /\
    (IsZero c = true -> exported evs ≡ₚ store).
Proof.
  intros Hk Hfuel.
  destruct (loop_exports workerID store Hk fuel o (lane_start c) w)
    as (evs & w' & Hl & Ht & He).
  { cbn [lastID lane_start]. rewrite length_sort_by.
    eapply Nat.le_lt_trans; [apply length_filter|exact Hfuel]. }
  exists evs, w'. cbn [lastID lane_start] in He.
  split; [exact Hl|]. split; [exact Ht|]. split; [exact He|].
  intros Hz. rewrite He, sort_by_Permutation.
  assert (lane_filter c = FilterAll) as ->
    by (unfold lane_filter; rewrite Hz; reflexivity).
  cbn [matches]. rewrite filter_all. reflexivity.
Qed.

Lemma sample_store_keyed : keyed sample_store.
Proof.
  split.
  - repeat constructor; eexists; split; reflexivity.
  - repeat constructor; intros Hin;
      repeat (apply elem_of_cons in Hin as [Hin|Hin]; [discriminate Hin|]);
      inversion Hin.
Qed.

(** X13 on the collection with keys 5, 2, 9. *)
Lemma export_is_complete_witness :
  exists evs w',
    exportWorker_loop 0 (fun _ => store_env sample_store SaveOk) 4
                      (lane_start NilObjectID) (world0 None) = (Break, w') /\
    trace w' = [] ++ evs /\
    exported evs = [doc_of x02; doc_of x05; doc_of x09] /\
    (IsZero NilObjectID = true -> exported evs ≡ₚ sample_store).
Proof.
  apply (export_is_complete 0 sample_store (fun _ => SaveOk) 4 NilObjectID (world0 None));
    [exact sample_store_keyed|simpl; lia].
Defined.

(** ** The inner loop inside the process *)

Lemma loop_steps (i : nat) :
  forall fuel env st s out w',
    running s -> lanes s !! i = Some (WLoop st) ->
    exportWorker_loop (Z.of_nat i) env fuel st (world s) = (out, w') ->
    reachable s (after_iter s i out w').
Proof.
  induction fuel as [|fuel IH]; intros env st s out w' Hrun Hi Hl.
  - injection Hl as <- <-. simpl. rewrite list_insert_id by exact Hi.
    destruct s; apply rtc_refl.
  - cbn [exportWorker_loop] in Hl.
    destruct (exportWorker_iter (Z.of_nat i) (env 0%nat) st (world s)) as [o1 w1] eqn:Hit.
    pose proof (step_iter s i st (env 0%nat) o1 w1 Hrun Hi Hit) as Hs.
    destruct o1 as [st1| | |]; try (injection Hl as <- <-; apply rtc_once, Hs).
    eapply rtc_l; [exact Hs|].
    assert (after_iter s i out w' =
            after_iter (after_iter s i (Continue st1) w1) i out w') as ->.
    { destruct out; simpl; rewrite list_insert_insert_eq; reflexivity. }
    apply (IH (fun k => env (S k)) st1).
    + destruct Hrun as [Hc Hm]. split; assumption.
    + simpl. apply list_lookup_insert_eq. eapply lookup_lt_Some, Hi.
    + exact Hl.
Qed.

Lemma done_state_stuck (w : World) (s' : Sys) :
  ~ step (mkSys MWait CWait [WDone] [] false 1 false w) s'.
Proof.
  intros Hs. inversion Hs; subst; simpl in *; try discriminate.
  all: match goal with
       | Hl : [WDone] !! ?i = Some _ |- _ =>
           destruct i as [|[|?]]; simpl in Hl; try discriminate
       end.
Qed.

(** X14. The inner loop is what the process runs: whatever the loop
    function computes for worker 0 from the value main sent on the
    channel, in any number of iterations and against any outside, is the
    end of a run of main's goroutines from the initial state. *)
Theorem loop_is_a_run (id : ObjectID) (w : World) (env : nat -> IterEnv)
        (fuel : nat) (out : Outcome) (w' : World) :
  exportWorker_loop 0 env fuel (lane_start id) w = (out, w') ->
  reachable (init id w) (after_iter (in_loop (lane_start id) w) 0 out w').
Proof.
  intros Hl. unfold reachable. etrans; [apply start_reaches_loop|].
  apply (loop_steps 0 fuel env (lane_start id)); [split; simpl; done|reflexivity|exact Hl].
Qed.

(** X14 on a run whose first [Find] fails. *)
Lemma loop_is_a_run_witness :
  reachable (init NilObjectID (world0 None))
    (after_iter (in_loop (lane_start NilObjectID) (world0 None)) 0 Return
       (mkWorld None ∅ [EvFind (lane_query NilObjectID); EvLog (LogFetchFailed 0)])).
Proof.
  apply (loop_is_a_run NilObjectID (world0 None) (fun _ => failing_env) 1).
  reflexivity.
Defined.

(** X15. The complete export of a collection as in X13 ends blocked:
    from the initial state of main there is a run after which every
    record beyond the loaded cursor has been encoded, in ascending key
    order, the worker is back at [range workChan], main is at
    [wg.Wait()], and no goroutine of the program can take a step. *)
Theorem full_export_ends_blocked (store : list Doc) (c : ObjectID) (w : World) :
  keyed store ->
  exists s evs,
    reachable (init c w) s /\
    lanes s = [WDone] /\ main_pc s = MWait /\
    trace (world s) = trace w ++ evs /\
    exported evs = sort_by "_id" (filter (fun d => matches (lane_filter c) d) store) /\
    forall s', ~ step s s'.
Proof.
  intros Hk.
  destruct (loop_exports 0 store Hk (S (length store)) (fun _ => SaveOk) (lane_start c) w)
    as (evs & w' & Hl & Ht & He).
  { cbn [lastID lane_start]. rewrite length_sort_by.
    apply Nat.lt_succ_r, length_filter. }
  exists (after_iter (in_loop (lane_start c) w) 0 Break w'), evs.
  split.
  { unfold reachable. etrans; [apply start_reaches_loop|].
    apply (loop_steps 0 (S (length store)) (fun _ => store_env store SaveOk) (lane_start c));
      [split; simpl; done|reflexivity|exact Hl]. }
  split; [reflexivity|]. split; [reflexivity|]. split; [exact Ht|].
  split; [exact He|]. apply done_state_stuck.
Qed.

(** X15 on the collection with keys 5, 2, 9. *)
Lemma full_export_ends_blocked_witness :
  exists s evs,
    reachable (init NilObjectID (world0 None)) s /\
    lanes s = [WDone] /\ main_pc s = MWait /\
    trace (world s) = [] ++ evs /\
    exported evs = [doc_of x02; doc_of x05; doc_of x09] /\
    forall s', ~ step s s'.
Proof.
  apply (full_export_ends_blocked sample_store NilObjectID (world0 None)).
  exact sample_store_keyed.
Defined.
